(** * Kanpai Panda snapshotter: a shallow embedding of the snapshot engines

    Sources embedded here:
    - [infinitysnapshotter.js] ([snapshotNFTs], [getTokenOwnerBatch]) and its
      copy [InfinitySnapshotter] in the bundled snapshotter;
    - the multi-chain Panda snapshotter ([snapshotNFTs], [getTokenOwnerBatch],
      [generateWalletSummary]);
    - the multi-chain Panda snapshotter's helpers ([getProvider],
      [calculateBatchSize], [processTokenBatch], [populateSnapshotBlocks]), the
      bundled [PandaSnapshotter.getLatestBlocks] and chain test, and the
      holders ranking of [generateOutput];
    - [solana_panda_snapshotter.js] ([SolanaPandaOwnershipFetcher]:
      [waitForSlot], [releaseSlot], [getNFTOwner], [processBatchUltraFast],
      [processEarningsCSV] and its summary counts).

    Token ids, batch sizes and counters are JavaScript numbers that stay
    small non-negative integers here; they are modelled as [nat].  Network
    answers are supplied by an oracle indexed by the pass, the chain and the
    token id: within one pass every id is looked up at most once per chain,
    so the oracle can describe any mix of transient failures.  Text is held
    as the UTF-8 bytes of the JavaScript string; [trim] works on its code
    points. *)

From Stdlib Require Import QArith Sorted.
From stdpp Require Import base gmap list strings.

(* ------------------------------------------------------------------ *)
(** ** Batching: the initial sweep and the recheck slices *)

Module Batching.
Section WithSizes.
Context (BATCH_SIZE TOTAL_SUPPLY : nat).

(** [for (let j = 0; j < BATCH_SIZE && i + j <= TOTAL_SUPPLY; j++) batch.push(i + j)] *)
Fixpoint fill_batch (fuel i j : nat) : list nat :=
  match fuel with
  | O => []
  | S f =>
      if (j <? BATCH_SIZE) && (i + j <=? TOTAL_SUPPLY)
      then (i + j) :: fill_batch f i (S j)
      else []
  end.

(** [for (let i = 1; i <= TOTAL_SUPPLY; i += BATCH_SIZE) { ... batches.push(batch) }].
    With [BATCH_SIZE >= 1] the loop runs at most [TOTAL_SUPPLY] times, which
    is the fuel given below; with [BATCH_SIZE = 0] the source never ends. *)
Fixpoint build_batches (fuel i : nat) : list (list nat) :=
  match fuel with
  | O => []
  | S f =>
      if i <=? TOTAL_SUPPLY
      then fill_batch BATCH_SIZE i 0 :: build_batches f (i + BATCH_SIZE)
      else []
  end.

Definition batches : list (list nat) := build_batches TOTAL_SUPPLY 1.

(** [for (let i = 0; i < tokensArray.length; i += batchSize)
       recheckBatches.push(tokensArray.slice(i, i + batchSize))] *)
Fixpoint slices (size : nat) (arr : list nat) (fuel i : nat) : list (list nat) :=
  match fuel with
  | O => []
  | S f =>
      if i <? length arr
      then take size (drop i arr) :: slices size arr f (i + size)
      else []
  end.

(** [const batchSize = Math.max(5, Math.floor(BATCH_SIZE / pass))] *)
Definition recheck_batch_size (pass : nat) : nat := Nat.max 5 (BATCH_SIZE / pass).

Definition recheck_batches (pass : nat) (tokensArray : list nat) : list (list nat) :=
  slices (recheck_batch_size pass) tokensArray (length tokensArray) 0.

End WithSizes.
End Batching.

(* ------------------------------------------------------------------ *)
(** ** The reconciliation state and the run skeleton shared by the EVM
    snapshotters *)

Module Engine.

(** [finalSnapshot] is the JS object keyed by token id, [tokensToRecheck]
    the JS [Set] (a duplicate-free list in insertion order, so that
    [Array.from] is the list itself) and [counters] the variant's
    statistics ([totalFound] or [chainStats]). *)
Record state (R C : Type) := mkState {
  finalSnapshot : gmap nat R;
  tokensToRecheck : list nat;
  counters : C
}.
Arguments mkState {R C} _ _ _.
Arguments finalSnapshot {R C} _.
Arguments tokensToRecheck {R C} _.
Arguments counters {R C} _.

(** [ethers.ZeroAddress] *)
Definition ZeroAddress : string := "0x0000000000000000000000000000000000000000".

(** The owner test of every loop: [result.owner && result.owner !== ethers.ZeroAddress];
    [None] is a null owner (the [ownerOf] call threw and was caught). *)
Definition owner_found (o : option string) : option string :=
  match o with
  | Some a => if bool_decide (a <> "" /\ a <> ZeroAddress) then Some a else None
  | None => None
  end.

(** [{ tokenId, owner }] as produced by [getTokenOwnerBatch]. *)
Record ownerResult := { tokenId : nat; owner : option string }.

(** JS [Set] operations on token ids. *)
Definition set_has (x : nat) (s : list nat) : bool := bool_decide (x ∈ s).
Definition set_add (x : nat) (s : list nat) : list nat :=
  if set_has x s then s else s ++ [x].
Definition set_delete (x : nat) (s : list nat) : list nat := filter (fun y => y <> x) s.

(** The retry loop [while (attempts > 0) { try { results = await call; break; }
    catch { attempts--; ... } }]; [None] is a rejected call. *)
Fixpoint with_attempts {A : Type} (attempts : nat) (call : option A) : option A :=
  match attempts with
  | O => None
  | S a => match call with Some r => Some r | None => with_attempts a call end
  end.

Section Ops.
Context {R C : Type} (bump : R -> C -> C).

(** [finalSnapshot[id] = r] together with the statistics update. *)
Definition record_found (id : nat) (r : R) (s : state R C) : state R C :=
  mkState (<[id := r]> (finalSnapshot s)) (tokensToRecheck s) (bump r (counters s)).

(** [tokensToRecheck.add(id)] *)
Definition mark_unresolved (id : nat) (s : state R C) : state R C :=
  mkState (finalSnapshot s) (set_add id (tokensToRecheck s)) (counters s).

(** [tokensToRecheck.delete(id)] *)
Definition mark_resolved (id : nat) (s : state R C) : state R C :=
  mkState (finalSnapshot s) (set_delete id (tokensToRecheck s)) (counters s).

(** The two loop bodies of every variant, over [(id, record found or not)]. *)
Fixpoint initial_items (items : list (nat * option R)) (s : state R C) : state R C :=
  match items with
  | [] => s
  | (id, o) :: rest =>
      initial_items rest
        (match o with
         | Some r => record_found id r s
         | None => mark_unresolved id s
         end)
  end.

Fixpoint recheck_items (items : list (nat * option R)) (s : state R C) : state R C :=
  match items with
  | [] => s
  | (id, o) :: rest =>
      recheck_items rest
        (if set_has id (tokensToRecheck s)
         then match o with
              | Some r => mark_resolved id (record_found id r s)
              | None => s
              end
         else s)
  end.

End Ops.

Section Run.
Context {St : Type} (recheck_of : St -> list nat)
        (group0 : list nat -> St -> St) (groupP : nat -> list nat -> St -> St)
        (BATCH_SIZE TOTAL_SUPPLY : nat).

(** The states after each group of a sequential [for (const batch of ...)] loop. *)
Fixpoint scan (f : list nat -> St -> St) (bs : list (list nat)) (s : St) : list St :=
  match bs with
  | [] => []
  | b :: bs' => let s' := f b s in s' :: scan f bs' s'
  end.

Fixpoint final_state (s : St) (tr : list St) : St :=
  match tr with
  | [] => s
  | s' :: tr' => final_state s' tr'
  end.

(** [for (let pass = 1; pass <= 3; pass++) { if (tokensToRecheck.size === 0) break;
      const tokensArray = Array.from(tokensToRecheck); ... }] *)
Fixpoint recheck_passes (passes : list nat) (s : St) : list St :=
  match passes with
  | [] => []
  | pass :: rest =>
      if bool_decide (recheck_of s = []) then []
      else
        let tr := scan (groupP pass)
                       (Batching.recheck_batches BATCH_SIZE pass (recheck_of s)) s in
        tr ++ recheck_passes rest (final_state s tr)
  end.

(** Pass 0 over all batches, then [if (tokensToRecheck.size > 0)] the three
    recheck passes; the result lists the state after every group. *)
Definition run_groups (s0 : St) : list St :=
  let t0 := scan group0 (Batching.batches BATCH_SIZE TOTAL_SUPPLY) s0 in
  let s1 := final_state s0 t0 in
  t0 ++ (if bool_decide (recheck_of s1 = []) then [] else recheck_passes [1; 2; 3] s1).

Definition run_final (s0 : St) : St := final_state s0 (run_groups s0).

End Run.
End Engine.

(* ------------------------------------------------------------------ *)
(** ** The Infinity snapshotter (single chain, Ethereum) *)

Module Infinity.
Import Engine.

(** [{ owner: result.owner, block: snapshotBlock }] *)
Record infinityRecord := { inf_owner : string; inf_block : nat }.

Abbreviation istate := (state infinityRecord nat).

(** [const TOTAL_SUPPLY = 250] *)
Definition TOTAL_SUPPLY : nat := 250.

(** [totalFound++] *)
Definition bump_found (_ : infinityRecord) (totalFound : nat) : nat := S totalFound.

Section Run.
(** [net pass tokenId] is what [contract.ownerOf(tokenId, { blockTag: snapshotBlock })]
    yields in that pass ([None]: the call threw). *)
Context (net : nat -> nat -> option string) (snapshotBlock BATCH_SIZE : nat).

(** [getTokenOwnerBatch]: every member call catches its own error, so the
    [Promise.all] always resolves. *)
Definition getTokenOwnerBatch (pass : nat) (tokenIds : list nat) : list ownerResult :=
  map (fun id => {| tokenId := id; owner := net pass id |}) tokenIds.

(** Pass 0: [for (const result of results) { if (...) { finalSnapshot[..] = ..;
    totalFound++; } else tokensToRecheck.add(result.tokenId); }] *)
Fixpoint initial_results (results : list ownerResult) (s : istate) : istate :=
  match results with
  | [] => s
  | result :: rest =>
      initial_results rest
        (match owner_found (owner result) with
         | Some a =>
             record_found bump_found (tokenId result)
               {| inf_owner := a; inf_block := snapshotBlock |} s
         | None => mark_unresolved (tokenId result) s
         end)
  end.

Definition initial_group (batch : list nat) (s : istate) : istate :=
  initial_results (getTokenOwnerBatch 0 batch) s.

(** Recheck passes: [if (!tokensToRecheck.has(result.tokenId)) continue; if (...)
    { finalSnapshot[..] = ..; totalFound++; tokensToRecheck.delete(..); }] *)
Fixpoint recheck_results (results : list ownerResult) (s : istate) : istate :=
  match results with
  | [] => s
  | result :: rest =>
      recheck_results rest
        (if negb (set_has (tokenId result) (tokensToRecheck s)) then s
         else match owner_found (owner result) with
              | Some a =>
                  mark_resolved (tokenId result)
                    (record_found bump_found (tokenId result)
                       {| inf_owner := a; inf_block := snapshotBlock |} s)
              | None => s
              end)
  end.

(** [let attempts = pass; while (...) ...; if (!results) continue;] *)
Definition recheck_group (pass : nat) (batch : list nat) (s : istate) : istate :=
  match with_attempts pass (Some (getTokenOwnerBatch pass batch)) with
  | None => s
  | Some results => recheck_results results s
  end.

(** [const finalSnapshot = {}; const tokensToRecheck = new Set(); let totalFound = 0;] *)
Definition empty : istate := mkState ∅ [] 0.

Definition run_groups : list istate :=
  Engine.run_groups tokensToRecheck initial_group recheck_group BATCH_SIZE TOTAL_SUPPLY empty.

Definition snapshotNFTs : istate := final_state empty run_groups.

(** [Tokens Not Found: TOTAL_SUPPLY - totalFound] and [missingTokens]. *)
Definition tokens_not_found (s : istate) : nat := TOTAL_SUPPLY - counters s.
Definition missingTokens (s : istate) : list nat := tokensToRecheck s.

End Run.

(** CSV rows [{ TokenId, Owner, Chain: 'ethereum', BlockNumber }]. *)
Record csvRow := { TokenId : nat; Owner : string; Chain : string; BlockNumber : nat }.

Definition row_of (e : nat * infinityRecord) : csvRow :=
  {| TokenId := e.1; Owner := inf_owner e.2; Chain := "ethereum"; BlockNumber := inf_block e.2 |}.

(** [csvData.sort((a, b) => parseInt(a.TokenId) - parseInt(b.TokenId))] *)
Fixpoint insert_row (r : csvRow) (rows : list csvRow) : list csvRow :=
  match rows with
  | [] => [r]
  | r' :: rest => if TokenId r' <=? TokenId r then r' :: insert_row r rest else r :: rows
  end.
Definition sort_rows (rows : list csvRow) : list csvRow := foldr insert_row [] rows.

(** [Object.entries(finalSnapshot).forEach(... csvData.push(...))], then sorted. *)
Definition csvData (s : istate) : list csvRow :=
  sort_rows (map row_of (map_to_list (finalSnapshot s))).

End Infinity.

(* ------------------------------------------------------------------ *)
(** ** The multi-chain Panda snapshotter (the cross-chain dispatcher) *)

Module Panda.
Import Engine.

(** [{ rpc, chainId, snapshotBlock }]; [snapshotBlock] is [null] until a
    block has been fetched. *)
Record chainConfig := { rpc : string; chainId : nat; snapshotBlock : option nat }.

(** [{ owner, chain: chainName, block: chains[chainName].snapshotBlock }] *)
Record pandaRecord := { p_owner : string; p_chain : string; p_block : option nat }.

Abbreviation pstate := (state pandaRecord (gmap string nat)).

(** [!chainConfig.snapshotBlock]: a null or zero block disables the chain. *)
Definition block_set (b : option nat) : bool :=
  match b with Some (S _) => true | _ => false end.

Section Run.
(** [chains] in configuration order ([Object.entries(chains)]); [net pass chainName tokenId]
    is what [ownerOf] yields on that chain in that pass ([None]: the call threw). *)
Context (chains : list (string * chainConfig))
        (net : nat -> string -> nat -> option string)
        (BATCH_SIZE TOTAL_SUPPLY : nat).

(** [chains[chainName]] *)
Fixpoint config_of (cs : list (string * chainConfig)) (name : string) : option chainConfig :=
  match cs with
  | [] => None
  | (n, c) :: rest => if bool_decide (n = name) then Some c else config_of rest name
  end.

Definition getTokenOwnerBatch (pass : nat) (chainName : string) (tokenIds : list nat)
  : list ownerResult :=
  map (fun id => {| tokenId := id; owner := net pass chainName id |}) tokenIds.

(** [results.find(r => r.tokenId === tokenId)] *)
Definition find_result (id : nat) (results : list ownerResult) : option ownerResult :=
  List.find (fun r => Nat.eqb (tokenId r) id) results.

(** [chainPromises] of pass 0: [null] for a chain without a snapshot block. *)
Definition initial_chain_results (batch : list nat)
  : list (option (string * option (list ownerResult))) :=
  map (fun '(chainName, cfg) =>
         if block_set (snapshotBlock cfg)
         then Some (chainName, Some (getTokenOwnerBatch 0 chainName batch))
         else None) chains.

(** [chainPromises] of a recheck pass, with [attempts = pass] retries. *)
Definition recheck_chain_results (pass : nat) (batch : list nat)
  : list (option (string * option (list ownerResult))) :=
  map (fun '(chainName, cfg) =>
         if block_set (snapshotBlock cfg)
         then Some (chainName, with_attempts pass (Some (getTokenOwnerBatch pass chainName batch)))
         else None) chains.

(** [for (const chainResult of chainResults) { if (!chainResult) continue; ...
      if (result?.owner && result.owner !== ethers.ZeroAddress) { ...; break; } }] *)
Fixpoint first_found (chainResults : list (option (string * option (list ownerResult))))
    (id : nat) : option (string * string) :=
  match chainResults with
  | [] => None
  | None :: rest => first_found rest id
  | Some (chainName, results) :: rest =>
      match (results ≫= find_result id) ≫= (fun r => owner_found (owner r)) with
      | Some a => Some (chainName, a)
      | None => first_found rest id
      end
  end.

Definition record_of (chainName owner : string) : pandaRecord :=
  {| p_owner := owner; p_chain := chainName;
     p_block := config_of chains chainName ≫= snapshotBlock |}.

(** [chainStats[chainName]++]; every [chainName] is a key of [chainStats]. *)
Definition bump_chain (r : pandaRecord) (chainStats : gmap string nat) : gmap string nat :=
  <[p_chain r := S (default 0 (chainStats !! p_chain r))]> chainStats.

(** Pass 0: [for (const tokenId of batch) { ... if (!foundOnChain) tokensToRecheck.add(tokenId); }] *)
Fixpoint initial_tokens (chainResults : list (option (string * option (list ownerResult))))
    (batch : list nat) (s : pstate) : pstate :=
  match batch with
  | [] => s
  | id :: rest =>
      initial_tokens chainResults rest
        (match first_found chainResults id with
         | Some (chainName, a) => record_found bump_chain id (record_of chainName a) s
         | None => mark_unresolved id s
         end)
  end.

Definition initial_group (batch : list nat) (s : pstate) : pstate :=
  initial_tokens (initial_chain_results batch) batch s.

(** Recheck: [if (!tokensToRecheck.has(tokenId)) continue; ... tokensToRecheck.delete(tokenId);] *)
Fixpoint recheck_tokens (chainResults : list (option (string * option (list ownerResult))))
    (batch : list nat) (s : pstate) : pstate :=
  match batch with
  | [] => s
  | id :: rest =>
      recheck_tokens chainResults rest
        (if negb (set_has id (tokensToRecheck s)) then s
         else match first_found chainResults id with
              | Some (chainName, a) =>
                  mark_resolved id (record_found bump_chain id (record_of chainName a) s)
              | None => s
              end)
  end.

Definition recheck_group (pass : nat) (batch : list nat) (s : pstate) : pstate :=
  recheck_tokens (recheck_chain_results pass batch) batch s.

(** [Object.keys(chains).forEach(chain => { chainStats[chain] = 0; })] *)
Definition empty : pstate :=
  mkState ∅ [] (list_to_map (map (fun '(n, _) => (n, 0)) chains)).

Definition run_groups : list pstate :=
  Engine.run_groups tokensToRecheck initial_group recheck_group BATCH_SIZE TOTAL_SUPPLY empty.

Definition snapshotNFTs : pstate := final_state empty run_groups.

(** [const totalFound = Object.keys(finalSnapshot).length]; [missing: TOTAL_SUPPLY - totalFound] *)
Definition totalFound (s : pstate) : nat := size (finalSnapshot s).
Definition missing (s : pstate) : nat := TOTAL_SUPPLY - totalFound s.

End Run.

(** CSV rows [{ TokenId, Owner, Chain, BlockNumber }]. *)
Record csvRow := { TokenId : nat; Owner : string; Chain : string; BlockNumber : option nat }.

Definition row_of (e : nat * pandaRecord) : csvRow :=
  {| TokenId := e.1; Owner := p_owner e.2; Chain := p_chain e.2; BlockNumber := p_block e.2 |}.

Fixpoint insert_row (r : csvRow) (rows : list csvRow) : list csvRow :=
  match rows with
  | [] => [r]
  | r' :: rest => if TokenId r' <=? TokenId r then r' :: insert_row r rest else r :: rows
  end.
Definition sort_rows (rows : list csvRow) : list csvRow := foldr insert_row [] rows.

Definition csvData (s : pstate) : list csvRow :=
  sort_rows (map row_of (map_to_list (finalSnapshot s))).

(** [generateWalletSummary]: [walletCounts[owner] = (walletCounts[owner] || 0) + 1]
    over [Object.values(foundTokens)]. *)
Definition generateWalletSummary (foundTokens : gmap nat pandaRecord) : gmap string nat :=
  foldl (fun walletCounts r =>
           <[p_owner r := default 0 (walletCounts !! p_owner r) + 1]> walletCounts)
        ∅ (map snd (map_to_list foundTokens)).

(** [sortedWallets.length] and the sum of the per-wallet counts. *)
Definition uniqueWallets (walletCounts : gmap string nat) : nat := size walletCounts.
Definition total_count (walletCounts : gmap string nat) : nat :=
  sum_list (map snd (map_to_list walletCounts)).

End Panda.

(* ------------------------------------------------------------------ *)
(** ** The Solana single-item owner fetcher and its rate gate *)

Module Fetcher.

(** The body of a [getTokenLargestAccounts] answer. *)
Inductive largestAccountsBody :=
  | LNoResult                                (** [!response.data || !response.data.result] *)
  | LAccounts (accounts : list (string * Z)) (** [result.value]: [(address, parseInt(amount))] *)
  | LNotArray.                               (** [result.value] has no [filter]: TypeError *)

(** The body of a [getAccountInfo] answer. *)
Inductive accountInfoBody :=
  | INoResult                            (** [!ownerResponse.data || !ownerResponse.data.result] *)
  | IUnparsed                            (** [!(accountData && accountData.data && accountData.data.parsed)] *)
  | IParsed (info : option (option string)).
    (** [parsed.info] ([None]: undefined, reading [.owner] throws) and its [owner] *)

(** What [axios.post] does: resolve with a status and a body, or reject
    ([error.response?.status]). *)
Inductive reply (B : Type) :=
  | Resolved (status : Z) (data : B)
  | Rejected (errStatus : option Z).
Arguments Resolved {B} _ _.
Arguments Rejected {B} _.

Inductive exn := HttpError (status : option Z) | TypeError.

(** What the fetcher does to the gate and the network, as it happens. *)
Inductive event := Acquire | Release | RoundTrip.

(** The fetcher's [activeRequests], with instrumentation: counters of slot
    acquisitions, slot releases and network round trips, and the log of
    these events, the most recent first. *)
Record gate := mkGate {
  activeRequests : Z;
  acquired : nat;
  released : nat;
  roundTrips : nat;
  events : list event
}.

(** A call either returns, throws, or stays in [waitForSlot]'s polling loop. *)
Inductive outcome (A : Type) :=
  | Done (a : A) (g : gate)
  | Thrown (e : exn) (g : gate)
  | Spinning (g : gate).
Arguments Done {A} _ _.
Arguments Thrown {A} _ _.
Arguments Spinning {A} _.

Definition M (A : Type) : Type := gate -> outcome A.

Definition ret {A : Type} (a : A) : M A := fun g => Done a g.
Definition bind {A B : Type} (m : M A) (k : A -> M B) : M B :=
  fun g => match m g with
           | Done a g' => k a g'
           | Thrown e g' => Thrown e g'
           | Spinning g' => Spinning g'
           end.
Definition throw {A : Type} (e : exn) : M A := fun g => Thrown e g.
Definition try_catch {A : Type} (body : M A) (handler : exn -> M A) : M A :=
  fun g => match body g with
           | Thrown e g' => handler e g'
           | o => o
           end.

Declare Scope fetch_scope.
Delimit Scope fetch_scope with fetch.
Notation "x <- m ;; k" := (bind m (fun x => k))
  (at level 90, m at next level, right associativity) : fetch_scope.
Notation "m ;;; k" := (bind m (fun _ => k))
  (at level 90, right associativity) : fetch_scope.
Local Open Scope fetch_scope.

(** [sleep(ms)]: time is not modelled. *)
Definition sleep (ms : Z) : M unit := ret tt.

(** Text values are Rocq strings holding the UTF-8 bytes of the
    JavaScript string (as the CSV file holds them); [decode_utf8] gives its
    code points, the way Node decodes a UTF-8 buffer: a malformed sequence
    becomes U+FFFD.  U+FFFD is not whitespace, so the [trim() === ''] tests
    below do not depend on how many replacement characters are produced. *)
Definition byte_of (c : Ascii.ascii) : Z := Z.of_N (Ascii.N_of_ascii c).
Definition in_range (lo hi b : Z) : bool := (lo <=? b)%Z && (b <=? hi)%Z.
Definition cont (cp b : Z) : Z := Z.lor (Z.shiftl cp 6) (Z.land b 0x3F).

Fixpoint decode_utf8_bytes (l : list Ascii.ascii) : list Z :=
  match l with
  | [] => []
  | c0 :: l1 =>
      let b0 := byte_of c0 in
      if (b0 <? 0x80)%Z then b0 :: decode_utf8_bytes l1
      else if in_range 0xC2 0xDF b0 then
        match l1 with
        | c1 :: l2 =>
            if in_range 0x80 0xBF (byte_of c1)
            then cont (Z.land b0 0x1F) (byte_of c1) :: decode_utf8_bytes l2
            else 0xFFFD%Z :: decode_utf8_bytes l1
        | [] => [0xFFFD%Z]
        end
      else if in_range 0xE0 0xEF b0 then
        let lo := if (b0 =? 0xE0)%Z then 0xA0%Z else 0x80%Z in
        let hi := if (b0 =? 0xED)%Z then 0x9F%Z else 0xBF%Z in
        match l1 with
        | c1 :: l2 =>
            if in_range lo hi (byte_of c1) then
              match l2 with
              | c2 :: l3 =>
                  if in_range 0x80 0xBF (byte_of c2)
                  then cont (cont (Z.land b0 0xF) (byte_of c1)) (byte_of c2)
                         :: decode_utf8_bytes l3
                  else 0xFFFD%Z :: decode_utf8_bytes l2
              | [] => [0xFFFD%Z]
              end
            else 0xFFFD%Z :: decode_utf8_bytes l1
        | [] => [0xFFFD%Z]
        end
      else if in_range 0xF0 0xF4 b0 then
        let lo := if (b0 =? 0xF0)%Z then 0x90%Z else 0x80%Z in
        let hi := if (b0 =? 0xF4)%Z then 0x8F%Z else 0xBF%Z in
        match l1 with
        | c1 :: l2 =>
            if in_range lo hi (byte_of c1) then
              match l2 with
              | c2 :: l3 =>
                  if in_range 0x80 0xBF (byte_of c2) then
                    match l3 with
                    | c3 :: l4 =>
                        if in_range 0x80 0xBF (byte_of c3)
                        then cont (cont (cont (Z.land b0 0x7) (byte_of c1)) (byte_of c2))
                               (byte_of c3) :: decode_utf8_bytes l4
                        else 0xFFFD%Z :: decode_utf8_bytes l3
                    | [] => [0xFFFD%Z]
                    end
                  else 0xFFFD%Z :: decode_utf8_bytes l2
              | [] => [0xFFFD%Z]
              end
            else 0xFFFD%Z :: decode_utf8_bytes l1
        | [] => [0xFFFD%Z]
        end
      else 0xFFFD%Z :: decode_utf8_bytes l1
  end.

Definition decode_utf8 (s : string) : list Z := decode_utf8_bytes (String.list_ascii_of_string s).

(** The UTF-8 bytes of one code point. *)
Definition encode_cp (cp : Z) : list Ascii.ascii :=
  map (fun b => Ascii.ascii_of_N (Z.to_N b))
    (if (cp <? 0x80)%Z then [cp]
     else if (cp <? 0x800)%Z then
       [Z.lor 0xC0 (Z.shiftr cp 6); Z.lor 0x80 (Z.land cp 0x3F)]
     else if (cp <? 0x10000)%Z then
       [Z.lor 0xE0 (Z.shiftr cp 12); Z.lor 0x80 (Z.land (Z.shiftr cp 6) 0x3F);
        Z.lor 0x80 (Z.land cp 0x3F)]
     else
       [Z.lor 0xF0 (Z.shiftr cp 18); Z.lor 0x80 (Z.land (Z.shiftr cp 12) 0x3F);
        Z.lor 0x80 (Z.land (Z.shiftr cp 6) 0x3F); Z.lor 0x80 (Z.land cp 0x3F)]).

Definition encode_utf8 (cps : list Z) : string :=
  String.string_of_list_ascii (concat (map encode_cp cps)).

(** The code points [String.prototype.trim] strips: WhiteSpace (TAB, VT,
    FF, ZWNBSP U+FEFF and the space separators U+0020, U+00A0, U+1680,
    U+2000-U+200A, U+202F, U+205F, U+3000) and LineTerminator (LF, CR,
    U+2028, U+2029). *)
Definition is_js_space (c : Z) : bool :=
  bool_decide (c ∈ [0x9; 0xA; 0xB; 0xC; 0xD; 0x20; 0xA0; 0x1680; 0x2028; 0x2029;
                    0x202F; 0x205F; 0x3000; 0xFEFF]%Z) ||
  in_range 0x2000 0x200A c.
Fixpoint drop_spaces (l : list Z) : list Z :=
  match l with
  | [] => []
  | c :: rest => if is_js_space c then drop_spaces rest else l
  end.
(** [String.prototype.trim]: strip whitespace code points at both ends. *)
Definition trim (s : string) : string :=
  encode_utf8 (rev (drop_spaces (rev (drop_spaces (decode_utf8 s))))).

Definition maxRetries : nat := 5.
Definition retryDelay : Z := 2000.

(** Loop control of one attempt: [continue] or [return owner]. *)
Inductive ctl := Continue | Return (o : option string).

Section Fetch.
(** [this.maxConcurrent]; the answers of the indexer, by the number of round
    trips made so far and the queried address. *)
Context (maxConcurrent : Z)
        (largest : nat -> string -> reply largestAccountsBody)
        (accountInfo : nat -> string -> reply accountInfoBody).

(** [waitForSlot]: [while (this.activeRequests >= this.maxConcurrent) await sleep(100);
    this.activeRequests++].  Nothing else releases a slot while this call
    polls, so a full gate keeps it polling forever. *)
Definition waitForSlot : M unit :=
  fun g => if bool_decide (activeRequests g < maxConcurrent)%Z
           then Done tt (mkGate (activeRequests g + 1) (S (acquired g)) (released g) (roundTrips g)
                                (Acquire :: events g))
           else Spinning g.

(** [releaseSlot]: [this.activeRequests--] *)
Definition releaseSlot : M unit :=
  fun g => Done tt (mkGate (activeRequests g - 1) (acquired g) (S (released g)) (roundTrips g)
                           (Release :: events g)).

(** [axios.post(HELIUS_RPC, { method: "getTokenLargestAccounts", params: [mintAddress, ..] })] *)
Definition post_largest (mintAddress : string) : M (Z * largestAccountsBody) :=
  fun g =>
    let g' := mkGate (activeRequests g) (acquired g) (released g) (S (roundTrips g))
                     (RoundTrip :: events g) in
    match largest (roundTrips g) mintAddress with
    | Resolved st d => Done (st, d) g'
    | Rejected st => Thrown (HttpError st) g'
    end.

(** [axios.post(HELIUS_RPC, { method: "getAccountInfo", params: [tokenAccount, ..] })] *)
Definition post_accountInfo (tokenAccount : string) : M (Z * accountInfoBody) :=
  fun g =>
    let g' := mkGate (activeRequests g) (acquired g) (released g) (S (roundTrips g))
                     (RoundTrip :: events g) in
    match accountInfo (roundTrips g) tokenAccount with
    | Resolved st d => Done (st, d) g'
    | Rejected st => Thrown (HttpError st) g'
    end.

(** The [try { ... } catch (error) { ... }] body of one attempt. *)
Definition attempt_body (mintAddress : string) (attempt : nat) : M ctl :=
  try_catch
    ((if 0 <? attempt then sleep (retryDelay * Z.of_nat attempt) else ret tt) ;;;
     r <- post_largest mintAddress ;;
     let (status, data) := r in
     if bool_decide (status = 429)%Z
     then releaseSlot ;;; sleep (retryDelay * (Z.of_nat attempt + 2)) ;;; ret Continue
     else match data with
          | LNoResult =>
              releaseSlot ;;; sleep (retryDelay * (Z.of_nat attempt + 1)) ;;; ret Continue
          | LNotArray => throw TypeError
          | LAccounts accounts =>
              match filter (fun acc => (0 < acc.2)%Z) accounts with
              | [] => releaseSlot ;;; sleep retryDelay ;;; ret Continue
              | (tokenAccount, _) :: _ =>
                  sleep 200 ;;;
                  r2 <- post_accountInfo tokenAccount ;;
                  let (status2, data2) := r2 in
                  if bool_decide (status2 = 429)%Z
                  then releaseSlot ;;; sleep (retryDelay * (Z.of_nat attempt + 2)) ;;; ret Continue
                  else match data2 with
                       | INoResult =>
                           releaseSlot ;;; sleep (retryDelay * (Z.of_nat attempt + 1)) ;;;
                           ret Continue
                       | IParsed (Some owner) => releaseSlot ;;; ret (Return owner)
                       | IParsed None => throw TypeError
                       | IUnparsed => releaseSlot ;;; sleep retryDelay ;;; ret Continue
                       end
              end
          end)
    (fun error =>
       releaseSlot ;;;
       match error with
       | HttpError (Some 429%Z) => sleep (retryDelay * (Z.of_nat attempt + 2)) ;;; ret Continue
       | _ =>
           if attempt <? maxRetries - 1
           then sleep (retryDelay * (Z.of_nat attempt + 2)) ;;; ret Continue
           else ret Continue (* the last attempt falls off the end of the loop body *)
       end).

(** [for (let attempt = 0; attempt < maxRetries; attempt++) { await this.waitForSlot(); ... }
     return null;] *)
Fixpoint attempts_from (mintAddress : string) (attempt fuel : nat) : M (option string) :=
  match fuel with
  | O => ret None
  | S f =>
      waitForSlot ;;;
      c <- attempt_body mintAddress attempt ;;
      match c with
      | Return o => ret o
      | Continue => attempts_from mintAddress (S attempt) f
      end
  end.

(** [getNFTOwner(mintAddress)]; [None] as input is an undefined or null identifier. *)
Definition getNFTOwner (mintAddress : option string) : M (option string) :=
  match mintAddress with
  | None => ret None
  | Some m =>
      if bool_decide (m = "") || bool_decide (trim m = "") then ret None
      else attempts_from m 0 maxRetries
  end.

End Fetch.
End Fetcher.

(* ------------------------------------------------------------------ *)
(** ** The Solana snapshot: [processEarningsCSV] *)

Module Solana.

(** A row of the earnings CSV: [SolanaTokenId] ([None]: no such column), the
    other columns, and the [OwnerWallet] column added by the snapshotter. *)
Record csvRow := {
  SolanaTokenId : option string;
  otherColumns : list (string * string);
  OwnerWallet : option string
}.

Definition with_owner (row : csvRow) (o : option string) : csvRow :=
  {| SolanaTokenId := SolanaTokenId row; otherColumns := otherColumns row; OwnerWallet := o |}.

(** [row.SolanaTokenId && row.SolanaTokenId.trim() !== ''] *)
Definition valid_row (row : csvRow) : bool :=
  match SolanaTokenId row with
  | Some m => negb (bool_decide (m = "")) && negb (bool_decide (Fetcher.trim m = ""))
  | None => false
  end.

Inductive result := Failed (message : string) | Saved (written : list csvRow).

Section Process.
(** [fetched mint] is the value [this.getNFTOwner(mint)] resolves to (the
    calls of one batch run concurrently). *)
Context (BATCH_SIZE : nat) (fetched : string -> option string).

(** The body of [batch.map(async (row) => { ... row.OwnerWallet = owner; })]. *)
Definition set_owner (row : csvRow) : csvRow :=
  match SolanaTokenId row with
  | Some m => if bool_decide (m = "") then row else with_owner row (fetched m)
  | None => row
  end.

(** The rows of [validData.slice(startIdx, endIdx)] are the objects of
    [validData] itself, so the batch updates [validData] in place. *)
Definition fetch_range (startIdx endIdx : nat) (rows : list csvRow) : list csvRow :=
  imap (fun k row => if bool_decide (startIdx <= k < endIdx) then set_owner row else row) rows.

(** [for (let startIdx = 0; startIdx < validData.length; startIdx += BATCH_SIZE)] *)
Fixpoint batch_loop (fuel startIdx : nat) (rows : list csvRow) : list csvRow :=
  match fuel with
  | O => rows
  | S f =>
      if startIdx <? length rows
      then batch_loop f (startIdx + BATCH_SIZE)
             (fetch_range startIdx (Nat.min (startIdx + BATCH_SIZE) (length rows)) rows)
      else rows
  end.

(** [saveCSV(data, filename)]: [if (data.length === 0) return;] and otherwise
    every row of [data] is written. *)
Definition saveCSV (data : list csvRow) : list csvRow := data.

Definition processEarningsCSV (data : list csvRow) : result :=
  match data with
  | [] => Failed "CSV file is empty"
  | firstRow :: _ =>
      match SolanaTokenId firstRow with
      | None => Failed "Missing required columns: SolanaTokenId"
      | Some _ =>
          let validData := map (fun row => with_owner row None) (filter valid_row data) in
          Saved (saveCSV (batch_loop (length validData) 0 validData))
      end
  end.

End Process.
End Solana.

(* ------------------------------------------------------------------ *)
(** ** Properties of runs used in the statements below *)

Module Props.
Import Engine.

Section OnStates.
Context {R C : Type}.

(** Every record of [a] is still there, unchanged, in [b]. *)
Definition keeps (a b : state R C) : Prop :=
  forall x r, finalSnapshot a !! x = Some r -> finalSnapshot b !! x = Some r.

(** No id of the unresolved set has a record. *)
Definition unresolved_unrecorded (s : state R C) : Prop :=
  forall x, x ∈ tokensToRecheck s -> finalSnapshot s !! x = None.

(** From [a] to [b] the unresolved set only loses ids, and only ids that
    got a record; records are kept. *)
Definition shrinks (a b : state R C) : Prop :=
  keeps a b /\
  tokensToRecheck b ⊆ tokensToRecheck a /\
  length (tokensToRecheck b) <= length (tokensToRecheck a) /\
  (forall x, x ∈ tokensToRecheck a -> x ∉ tokensToRecheck b ->
             is_Some (finalSnapshot b !! x)).

(** The reconciliation invariant after the ids of [P] have been swept:
    every id of [P] is either recorded or unresolved, never both; the
    records satisfy [good]; the statistics [cnt] count the records. *)
Record Inv (good : R -> Prop) (cnt : C -> nat) (P : list nat) (s : state R C) : Prop := {
  inv_nodup : NoDup (tokensToRecheck s);
  inv_unrecorded : unresolved_unrecorded s;
  inv_cover : forall x, (x ∈ tokensToRecheck s \/ is_Some (finalSnapshot s !! x)) <-> x ∈ P;
  inv_good : forall x r, finalSnapshot s !! x = Some r -> good r;
  inv_size : size (finalSnapshot s) + length (tokensToRecheck s) = length P;
  inv_cnt : cnt (counters s) = size (finalSnapshot s)
}.

End OnStates.

(** [Rel] holds between every state of a trace and the next one. *)
Fixpoint linked {St : Type} (Rel : St -> St -> Prop) (s : St) (tr : list St) : Prop :=
  match tr with
  | [] => True
  | s' :: tr' => Rel s s' /\ linked Rel s' tr'
  end.

(** An owner that counts as a resolution: non-null and not the zero address. *)
Definition valid_owner (a : string) : Prop := a <> "" /\ a <> ZeroAddress.

(** The dispatcher's rule as the specification words it: the first chain in
    configuration order that has a snapshot block and reports a non-null,
    non-zero owner for [id] in pass [pass]. *)
Fixpoint first_reporting_chain (net : nat -> string -> nat -> option string) (pass : nat)
    (chains : list (string * Panda.chainConfig)) (id : nat)
  : option (string * Panda.chainConfig * string) :=
  match chains with
  | [] => None
  | (name, cfg) :: rest =>
      match (if Panda.block_set (Panda.snapshotBlock cfg) then owner_found (net pass name id)
             else None) with
      | Some a => Some (name, cfg, a)
      | None => first_reporting_chain net pass rest id
      end
  end.

End Props.

(* ------------------------------------------------------------------ *)
(** ** The provider cache: [getProvider] *)

Module Providers.

(** A [JsonRpcProvider]; [p_serial] numbers the providers in the order they
    are created, so that two providers are the same object exactly when they
    are equal. *)
Record provider := mkProvider {
  p_serial : nat;
  p_rpc : string;
  p_chainId : nat;
  p_name : string
}.

(** [providerCache], a JS [Map] from chain names, with the number of
    providers created so far. *)
Record cache := mkCache { providerCache : gmap string provider; created : nat }.

Definition emptyCache : cache := mkCache ∅ 0.

(** [if (!providerCache.has(chainName)) { const provider = new ethers.JsonRpcProvider(
      chainConfig.rpc, { chainId: chainConfig.chainId, name: chainName });
      providerCache.set(chainName, provider); } return providerCache.get(chainName);] *)
Definition getProvider (chainName : string) (chainConfig : Panda.chainConfig) (c : cache)
  : provider * cache :=
  match providerCache c !! chainName with
  | Some p => (p, c)
  | None =>
      let p := mkProvider (created c) (Panda.rpc chainConfig) (Panda.chainId chainConfig) chainName in
      (p, mkCache (<[chainName := p]> (providerCache c)) (S (created c)))
  end.

(** A sequence of calls, as the snapshotters make them (one per
    [getTokenOwnerBatch] and per block lookup), threading the cache. *)
Fixpoint getProvider_calls (calls : list (string * Panda.chainConfig)) (c : cache)
  : list provider * cache :=
  match calls with
  | [] => ([], c)
  | (chainName, chainConfig) :: rest =>
      let (p, c1) := getProvider chainName chainConfig c in
      let (ps, c2) := getProvider_calls rest c1 in
      (p :: ps, c2)
  end.

End Providers.

(* ------------------------------------------------------------------ *)
(** ** Snapshot blocks: [populateSnapshotBlocks] and [getLatestBlocks] *)

Module Blocks.
Import Panda.

(** [moralisChains] *)
Definition moralisChains : list (string * string) :=
  [("ethereum", "eth"); ("arbitrum", "arbitrum"); ("optimism", "optimism"); ("bsc", "bsc");
   ("polygon", "polygon"); ("fantom", "fantom"); ("avalanche", "avalanche")].

(** [moralisChains[chainName]], over the object's own keys. *)
Fixpoint lookup_assoc (k : string) (l : list (string * string)) : option string :=
  match l with
  | [] => None
  | (k', v) :: rest => if bool_decide (k' = k) then Some v else lookup_assoc k rest
  end.

(** [config.snapshotBlock = blockNumber] *)
Definition set_block (blockNumber : option nat) (config : chainConfig) : chainConfig :=
  {| rpc := rpc config; chainId := chainId config; snapshotBlock := blockNumber |}.

(** Both loops either run to their end or stop at the first [await] that
    throws; the error leaves the function, and the configurations updated
    before it keep their new block. *)
Inductive status := Completed | Threw.

Section Populate.
(** [dateToBlock moralisChain]: [None] when [getBlockForTimestamp] throws,
    [Some b] when it returns [response.data.block] ([b = None]: undefined). *)
Context (dateToBlock : string -> option (option nat)).

(** [for (const [chainName, config] of Object.entries(chains)) {
      const moralisChain = moralisChains[chainName];
      if (!moralisChain) { ...; continue; }
      const blockNumber = await getBlockForTimestamp(moralisChain, unixTimestamp);
      config.snapshotBlock = blockNumber; ... }] *)
Fixpoint populateSnapshotBlocks (chains : list (string * chainConfig))
  : list (string * chainConfig) * status :=
  match chains with
  | [] => ([], Completed)
  | (chainName, config) :: rest =>
      match lookup_assoc chainName moralisChains with
      | None =>
          let (rest', st) := populateSnapshotBlocks rest in ((chainName, config) :: rest', st)
      | Some moralisChain =>
          match dateToBlock moralisChain with
          | None => ((chainName, config) :: rest, Threw)
          | Some blockNumber =>
              let (rest', st) := populateSnapshotBlocks rest in
              ((chainName, set_block blockNumber config) :: rest', st)
          end
      end
  end.

End Populate.

Section Latest.
(** [latest chainName]: what [provider.getBlockNumber()] resolves to on that
    chain ([None]: it rejects). *)
Context (latest : string -> option nat).

(** The bundled [PandaSnapshotter.getLatestBlocks]:
    [for (const [chainName, config] of Object.entries(chains)) {
       if (!config.rpc) { ...; continue; }
       const blockNumber = await provider.getBlockNumber(); config.snapshotBlock = blockNumber; ... }].
    An unset RPC URL is the empty string. *)
Fixpoint getLatestBlocks (chains : list (string * chainConfig))
  : list (string * chainConfig) * status :=
  match chains with
  | [] => ([], Completed)
  | (chainName, config) :: rest =>
      if bool_decide (rpc config = "")
      then let (rest', st) := getLatestBlocks rest in ((chainName, config) :: rest', st)
      else match latest chainName with
           | None => ((chainName, config) :: rest, Threw)
           | Some blockNumber =>
               let (rest', st) := getLatestBlocks rest in
               ((chainName, set_block (Some blockNumber) config) :: rest', st)
           end
  end.

End Latest.

(** The chain test of the bundled [PandaSnapshotter.snapshotNFTs]:
    [if (!chainConfig.snapshotBlock || !chainConfig.rpc) return null;] *)
Definition bundled_active (config : chainConfig) : bool :=
  block_set (snapshotBlock config) && negb (bool_decide (rpc config = "")).

End Blocks.

(* ------------------------------------------------------------------ *)
(** ** The summaries: holders ranking, Solana statistics, error-rate batch sizing *)

Module Summary.

(** [Object.entries(walletCounts).sort((a, b) => b[1] - a[1])]: a stable
    sort by non-increasing count, as an insertion sort.  The order of the
    entries of [walletCounts] before sorting is that of [map_to_list]; ties
    keep it. *)
Fixpoint insert_wallet (e : string * nat) (l : list (string * nat)) : list (string * nat) :=
  match l with
  | [] => [e]
  | e' :: rest => if e.2 <? e'.2 then e' :: insert_wallet e rest else e :: l
  end.

Definition sortedWallets (walletCounts : gmap string nat) : list (string * nat) :=
  foldr insert_wallet [] (map_to_list walletCounts).

(** [sortedWallets.slice(0, 5)], the "Top 5 Holders". *)
Definition topHolders (walletCounts : gmap string nat) : list (string * nat) :=
  take 5 (sortedWallets walletCounts).

(** [validData.filter(row => row.OwnerWallet).length] and
    [validData.length - foundOwners]. *)
Definition foundOwners (validData : list Solana.csvRow) : nat :=
  length (filter (fun row => match Solana.OwnerWallet row with
                             | Some o => negb (bool_decide (o = ""))
                             | None => false
                             end = true) validData).

Definition missingOwners (validData : list Solana.csvRow) : nat :=
  length validData - foundOwners validData.

(** [processTokenBatch]: [{ tokenId, owner, success }] per id, and
    [errorRate: results.filter(r => !r.success).length / results.length].
    [call tokenId] is what [ownerOf] resolves to ([None]: it threw).  The
    rate of an empty batch is [0 / 0], NaN ([None]); the others are ratios of
    small counts, compared exactly. *)
Record tokenResult := { tr_tokenId : nat; tr_owner : option string; success : bool }.

Definition processTokenBatch (call : nat -> option string) (tokenIds : list nat)
  : list tokenResult * option Q :=
  let results := map (fun tokenId =>
                        match call tokenId with
                        | Some owner => {| tr_tokenId := tokenId; tr_owner := Some owner; success := true |}
                        | None => {| tr_tokenId := tokenId; tr_owner := None; success := false |}
                        end) tokenIds in
  (results,
   match length results with
   | O => None
   | S n => Some (Qmake (Z.of_nat (length (filter (fun r => success r = false) results)))
                        (Pos.of_succ_nat n))
   end).

(** [errorRate > t]; every comparison with NaN is false. *)
Definition rate_above (errorRate : option Q) (t : Q) : bool :=
  match errorRate with
  | Some e => negb (Qle_bool e t)
  | None => false
  end.

(** [calculateBatchSize(remainingTokens, errorRate = 0)] *)
Definition calculateBatchSize (remainingTokens : nat) (errorRate : option Q) : nat :=
  if rate_above errorRate (1 # 2) then 10
  else if rate_above errorRate (1 # 5) then 15
  else if remainingTokens <? 100 then 10
  else 25.

End Summary.

(* ------------------------------------------------------------------ *)
(** ** The Solana batch path: [processBatchUltraFast] *)

Module UltraFast.
Import Fetcher Solana.

(** The [result.value] of a [getMultipleAccounts] answer: a list whose
    entries are [account.data?.parsed?.info?.owner] ([None]: a null account
    or a missing field). *)
Inductive multipleBody :=
  | MNoValue                                     (** [response.data?.result?.value] is absent *)
  | MAccounts (accounts : list (option string))
  | MNotArray.                                   (** a value without [forEach]: TypeError *)

(** Truthiness of a string. *)
Definition truthy (s : string) : bool := negb (bool_decide (s = "")).

Definition chunkSize : nat := 100.

Section Batch.
(** The answers to [getTokenLargestAccounts] for a mint and to
    [getMultipleAccounts] for a chunk of account addresses. *)
Context (largest : string -> reply largestAccountsBody)
        (multipleAccounts : list string -> reply multipleBody).

(** [batch.map(row => row.SolanaTokenId).filter(mint => mint && mint.trim() !== '')] *)
Definition mintAddresses (batch : list csvRow) : list string :=
  omap (fun row => if valid_row row then SolanaTokenId row else None) batch.

(** [{ mint, tokenAccount: activeAccount?.address || null }] with
    [activeAccount = (response.data?.result?.value || []).find(acc => parseInt(acc.amount) > 0)];
    a rejected request, or a [value] without [find], is caught and gives [null]. *)
Definition tokenAccount_of (mint : string) : option string :=
  match largest mint with
  | Resolved _ (LAccounts accounts) =>
      match List.find (fun acc => (0 <? acc.2)%Z) accounts with
      | Some (address, _) => if truthy address then Some address else None
      | None => None
      end
  | Resolved _ LNoResult => None
  | Resolved _ LNotArray => None
  | Rejected _ => None
  end.

(** [tokenAccounts.filter(ta => ta.tokenAccount)], as [(mint, tokenAccount)]. *)
Definition validTokenAccounts (batch : list csvRow) : list (string * string) :=
  omap (fun mint => match tokenAccount_of mint with
                    | Some t => Some (mint, t)
                    | None => None
                    end) (mintAddresses batch).

(** The [{ mint, owner }] entries one chunk pushes to [ownerResults]:
    [accounts.forEach((account, idx) => { const mint = chunkTokenAccounts[idx]?.mint;
       if (account && account.data?.parsed?.info?.owner && mint) ownerResults.push({ mint, owner });
       else if (mint) ownerResults.push({ mint, owner: null }); })], and in the
    [catch] a [null] owner for every account of the chunk. *)
Definition chunk_owners (chunkTokenAccounts : list (string * string))
  : list (string * option string) :=
  match multipleAccounts (map snd chunkTokenAccounts) with
  | Resolved _ (MAccounts accounts) =>
      omap (fun x => x)
        (imap (fun idx account =>
                 match chunkTokenAccounts !! idx with
                 | Some (mint, _) =>
                     if truthy mint
                     then Some (mint, match account with
                                      | Some owner => if truthy owner then Some owner else None
                                      | None => None
                                      end)
                     else None
                 | None => None
                 end) accounts)
  | Resolved _ MNoValue => []
  | Resolved _ MNotArray => map (fun ta => (ta.1, None)) chunkTokenAccounts
  | Rejected _ => map (fun ta => (ta.1, None)) chunkTokenAccounts
  end.

(** [for (let i = 0; i < accountAddresses.length; i += chunkSize) {
      const chunk = accountAddresses.slice(i, i + chunkSize);
      const chunkTokenAccounts = validTokenAccounts.slice(i, i + chunkSize); ... }] *)
Fixpoint chunk_loop (fuel i : nat) (vta : list (string * string)) : list (string * option string) :=
  match fuel with
  | O => []
  | S f =>
      if i <? length vta
      then chunk_owners (take chunkSize (drop i vta)) ++ chunk_loop f (i + chunkSize) vta
      else []
  end.

Definition ownerResults (batch : list csvRow) : list (string * option string) :=
  chunk_loop (length (validTokenAccounts batch)) 0 (validTokenAccounts batch).

(** [if (row.SolanaTokenId) { const result = ownerResults.find(r => r.mint === row.SolanaTokenId);
      row.OwnerWallet = result?.owner || null; }] *)
Definition map_back (results : list (string * option string)) (row : csvRow) : csvRow :=
  match SolanaTokenId row with
  | Some m =>
      if truthy m
      then with_owner row
             (match List.find (fun r => bool_decide (r.1 = m)) results with
              | Some (_, Some owner) => if truthy owner then Some owner else None
              | _ => None
              end)
      else row
  | None => row
  end.

(** [processBatchUltraFast(batch)]: the rows of [batch] are updated in place;
    the function returns the updated rows. *)
Definition processBatchUltraFast (batch : list csvRow) : list csvRow :=
  if bool_decide (mintAddresses batch = []) then batch
  else if bool_decide (validTokenAccounts batch = []) then batch
  else map (map_back (ownerResults batch)) batch.

End Batch.
End UltraFast.

(* ------------------------------------------------------------------ *)
(** ** Auxiliary notions for the statements about the code above *)

Module ExtraProps.

(** The owner a [getMultipleAccounts] answer gives for a token account,
    kept when it is a non-empty string, as [processBatchUltraFast] reads it. *)
Definition owner_of (info : string -> option string) (t : string) : option string :=
  match info t with
  | Some owner => if UltraFast.truthy owner then Some owner else None
  | None => None
  end.

(** Every provider in the cache is stored under its own chain name. *)
Definition names_ok (c : Providers.cache) : Prop :=
  forall n p, Providers.providerCache c !! n = Some p -> Providers.p_name p = n.

(** Non-increasing order of counts, the order of the holders ranking. *)
Definition by_count (a b : string * nat) : Prop := b.2 <= a.2.

(** The events of one attempt of [getNFTOwner] that makes [k] round trips:
    the slot taken, the round trips, the slot given back. *)
Definition attempt_events (k : nat) : list Fetcher.event :=
  Fetcher.Acquire :: repeat Fetcher.RoundTrip k ++ [Fetcher.Release].

End ExtraProps.

(* ------------------------------------------------------------------ *)
(** ** Concrete inputs *)

Module Examples.
Import Fetcher.

(** A no-break space U+00A0 (UTF-8 bytes C2 A0): blank for [trim]. *)
Definition ex_nbsp : string :=
  String (Ascii.ascii_of_nat 194) (String (Ascii.ascii_of_nat 160) EmptyString).

Definition ex_batch : list Solana.csvRow :=
  [ {| Solana.SolanaTokenId := Some "mintA"; Solana.otherColumns := []; Solana.OwnerWallet := None |};
    {| Solana.SolanaTokenId := Some "  "; Solana.otherColumns := []; Solana.OwnerWallet := Some "stale" |};
    {| Solana.SolanaTokenId := Some "mintB"; Solana.otherColumns := []; Solana.OwnerWallet := None |};
    {| Solana.SolanaTokenId := Some ex_nbsp; Solana.otherColumns := []; Solana.OwnerWallet := Some "stale" |} ].

Definition ex_largest (mint : string) : reply largestAccountsBody :=
  if bool_decide (mint = "mintA") then Resolved 200 (LAccounts [("accA", 1%Z)])
  else Resolved 200 (LAccounts []).

Definition ex_info (t : string) : option string :=
  if bool_decide (t = "accA") then Some "OWNER" else None.

Definition ex_eth : Panda.chainConfig :=
  {| Panda.rpc := "https://eth"; Panda.chainId := 1; Panda.snapshotBlock := None |}.

Definition ex_eth2 : Panda.chainConfig :=
  {| Panda.rpc := "https://eth-other"; Panda.chainId := 1; Panda.snapshotBlock := None |}.

Definition ex_poly : Panda.chainConfig :=
  {| Panda.rpc := "https://polygon"; Panda.chainId := 137; Panda.snapshotBlock := None |}.

Definition ex_calls : list (string * Panda.chainConfig) :=
  [("ethereum", ex_eth); ("polygon", ex_poly); ("ethereum", ex_eth2)].

Definition ex_chains : list (string * Panda.chainConfig) :=
  [("ethereum", ex_eth); ("base", {| Panda.rpc := ""; Panda.chainId := 10; Panda.snapshotBlock := None |});
   ("polygon", ex_poly)].

Definition ex_latest (n : string) : option nat :=
  if bool_decide (n = "polygon") then Some 0 else Some 100.

Definition ex_rows : list Solana.csvRow :=
  [ {| Solana.SolanaTokenId := Some "mint1"; Solana.otherColumns := []; Solana.OwnerWallet := None |};
    {| Solana.SolanaTokenId := Some " "; Solana.otherColumns := []; Solana.OwnerWallet := None |};
    {| Solana.SolanaTokenId := Some "mint2"; Solana.otherColumns := []; Solana.OwnerWallet := None |};
    {| Solana.SolanaTokenId := Some ex_nbsp; Solana.otherColumns := []; Solana.OwnerWallet := None |} ].

Definition ex_fetched (m : string) : option string :=
  if bool_decide (m = "mint1") then Some "OWNER" else None.

End Examples.

(* ================================================================== *)
(** * Proofs *)

(* ------------------------------------------------------------------ *)
(** ** Batching *)

Module BatchingFacts.
Import Batching.

Lemma fill_batch_seq (B N i f j : nat) :
  B <= j + f ->
  fill_batch B N f i j = seq (i + j) (Nat.min (B - j) (N + 1 - (i + j))).
Proof.
  revert j. induction f as [|f IH]; intros j Hf; simpl.
  - replace (B - j) with 0 by lia. reflexivity.
  - destruct (j <? B) eqn:E1; destruct (i + j <=? N) eqn:E2; simpl.
    + apply Nat.ltb_lt in E1. apply Nat.leb_le in E2. rewrite IH by lia.
      replace (Nat.min (B - j) (N + 1 - (i + j)))
        with (S (Nat.min (B - S j) (N + 1 - (i + S j)))) by lia.
      simpl. f_equal. f_equal. lia.
    + apply Nat.leb_gt in E2. replace (N + 1 - (i + j)) with 0 by lia.
      rewrite Nat.min_0_r. reflexivity.
    + apply Nat.ltb_ge in E1. replace (B - j) with 0 by lia. reflexivity.
    + apply Nat.ltb_ge in E1. replace (B - j) with 0 by lia. reflexivity.
Qed.

Lemma fill_batch_first (B N i : nat) :
  fill_batch B N B i 0 = seq i (Nat.min B (N + 1 - i)).
Proof.
  rewrite fill_batch_seq by lia. rewrite Nat.add_0_r, Nat.sub_0_r. reflexivity.
Qed.

Lemma build_batches_concat (B N f i : nat) :
  0 < B -> 1 <= i -> N + 1 - i <= f * B ->
  concat (build_batches B N f i) = seq i (N + 1 - i).
Proof.
  revert i. induction f as [|f IH]; intros i HB Hi Hf; simpl.
  - replace (N + 1 - i) with 0 by lia. reflexivity.
  - destruct (i <=? N) eqn:E; simpl.
    + apply Nat.leb_le in E. rewrite fill_batch_first.
      destruct (decide (B <= N + 1 - i)).
      * rewrite IH by lia. rewrite Nat.min_l by lia.
        rewrite <- seq_app. f_equal. lia.
      * rewrite Nat.min_r by lia.
        destruct f as [|f]; simpl; [rewrite app_nil_r; reflexivity|].
        replace (i + B <=? N) with false by (symmetry; apply Nat.leb_gt; lia).
        rewrite app_nil_r. reflexivity.
    + apply Nat.leb_gt in E. replace (N + 1 - i) with 0 by lia. reflexivity.
Qed.

Lemma batches_concat (B N : nat) :
  0 < B -> concat (batches B N) = seq 1 N.
Proof.
  intros HB. unfold batches. rewrite build_batches_concat by nia.
  f_equal. lia.
Qed.

Lemma build_batches_lengths (B N f i : nat) :
  0 < B ->
  forall k b, build_batches B N f i !! k = Some b ->
    0 < length b <= B /\
    (S k < length (build_batches B N f i) -> length b = B).
Proof.
  revert i. induction f as [|f IH]; intros i HB k b Hk; simpl in *.
  - discriminate.
  - destruct (i <=? N) eqn:E; [|discriminate].
    apply Nat.leb_le in E. destruct k as [|k]; simpl in Hk.
    + injection Hk as <-. rewrite fill_batch_first, length_seq.
      split; [lia|]. simpl. intros Hlen.
      destruct f as [|f]; simpl in Hlen; [lia|].
      destruct (i + B <=? N) eqn:E2; simpl in Hlen; [|lia].
      apply Nat.leb_le in E2. lia.
    + destruct (IH (i + B) HB k b Hk) as [H1 H2]. split; [exact H1|].
      simpl. intros Hlen. apply H2. lia.
Qed.

Lemma slices_concat (k : nat) (arr : list nat) (f i : nat) :
  0 < k -> length arr - i <= f * k ->
  concat (slices k arr f i) = drop i arr.
Proof.
  revert i. induction f as [|f IH]; intros i Hk Hf; simpl.
  - rewrite drop_ge by lia. reflexivity.
  - destruct (i <? length arr) eqn:E; simpl.
    + rewrite IH by lia. rewrite <- drop_drop. apply take_drop.
    + apply Nat.ltb_ge in E. rewrite drop_ge by lia. reflexivity.
Qed.

Lemma slices_lengths (k : nat) (arr : list nat) (f i : nat) :
  0 < k ->
  forall j b, slices k arr f i !! j = Some b ->
    0 < length b <= k /\ (S j < length (slices k arr f i) -> length b = k).
Proof.
  revert i. induction f as [|f IH]; intros i Hk j b Hj; simpl in *.
  - discriminate.
  - destruct (i <? length arr) eqn:E; [|discriminate].
    apply Nat.ltb_lt in E. destruct j as [|j]; simpl in Hj.
    + injection Hj as <-. rewrite length_take, length_drop.
      split; [lia|]. simpl. intros Hlen.
      destruct f as [|f]; simpl in Hlen; [lia|].
      destruct (i + k <? length arr) eqn:E2; simpl in Hlen; [|lia].
      apply Nat.ltb_lt in E2. lia.
    + destruct (IH (i + k) Hk j b Hj) as [H1 H2]. split; [exact H1|].
      simpl. intros Hlen. apply H2. lia.
Qed.

Lemma recheck_batch_size_pos (B pass : nat) : 0 < recheck_batch_size B pass.
Proof. unfold recheck_batch_size. lia. Qed.

Lemma recheck_batches_concat (B pass : nat) (arr : list nat) :
  concat (recheck_batches B pass arr) = arr.
Proof.
  unfold recheck_batches. rewrite slices_concat.
  - reflexivity.
  - apply recheck_batch_size_pos.
  - pose proof (recheck_batch_size_pos B pass). nia.
Qed.

Lemma build_batches_zero (N f i : nat) : concat (build_batches 0 N f i) = [].
Proof.
  revert i. induction f as [|f IH]; intros i; simpl; [reflexivity|].
  destruct (i <=? N); simpl; [|reflexivity].
  rewrite IH. destruct N; reflexivity.
Qed.

Lemma batches_nodup (B N : nat) : NoDup (concat (batches B N)).
Proof.
  destruct B as [|B].
  - unfold batches. rewrite build_batches_zero. constructor.
  - rewrite batches_concat by lia. apply NoDup_seq.
Qed.

(** C2: a recheck pass [pass] cuts the unresolved ids, in order, into
    slices of [max(5, floor(BATCH_SIZE / pass))] ids (the last one possibly
    shorter), while the initial sweep cuts [1..TOTAL_SUPPLY] into batches of
    [BATCH_SIZE] ids (the last one possibly shorter). *)
Theorem recheck_batch_size_law (B N pass : nat) (tokensArray : list nat) :
  0 < B ->
  recheck_batch_size B pass = Nat.max 5 (B / pass) /\
  concat (recheck_batches B pass tokensArray) = tokensArray /\
  (forall k b, recheck_batches B pass tokensArray !! k = Some b ->
     0 < length b <= Nat.max 5 (B / pass) /\
     (S k < length (recheck_batches B pass tokensArray) -> length b = Nat.max 5 (B / pass))) /\
  concat (batches B N) = seq 1 N /\
  (forall k b, batches B N !! k = Some b ->
     0 < length b <= B /\ (S k < length (batches B N) -> length b = B)).
Proof.
  intros HB. split; [reflexivity|]. split; [apply recheck_batches_concat|].
  split; [|split].
  - intros k b Hk. apply (slices_lengths _ _ _ _ (recheck_batch_size_pos B pass) k b Hk).
  - apply batches_concat, HB.
  - intros k b Hk. apply (build_batches_lengths B N N 1 HB k b Hk).
Qed.

Lemma recheck_batch_size_law_witness :
  recheck_batch_size 25 2 = 12 /\ concat (recheck_batches 25 2 [7; 3; 9]) = [7; 3; 9].
Proof.
  destruct (recheck_batch_size_law 25 250 2 [7; 3; 9] ltac:(lia)) as [H1 [H2 _]].
  split; [rewrite H1; reflexivity | exact H2].
Defined.

End BatchingFacts.

(* ------------------------------------------------------------------ *)
(** ** The reconciliation state *)

Module EngineFacts.
Import Engine Props.

(** *** The [Set] of unresolved ids *)

Lemma set_has_spec (x : nat) (l : list nat) : set_has x l = true <-> x ∈ l.
Proof. unfold set_has. apply bool_decide_eq_true. Qed.

Lemma elem_of_set_add (x y : nat) (l : list nat) : x ∈ set_add y l <-> x = y \/ x ∈ l.
Proof.
  unfold set_add. destruct (set_has y l) eqn:E.
  - apply set_has_spec in E. split; [tauto|]. intros [->|H]; assumption.
  - rewrite elem_of_app, list_elem_of_singleton. split; intros [H|H]; auto.
Qed.

Lemma set_add_fresh (y : nat) (l : list nat) : y ∉ l -> set_add y l = l ++ [y].
Proof.
  intros Hy. unfold set_add. destruct (set_has y l) eqn:E; [|reflexivity].
  apply set_has_spec in E. contradiction.
Qed.

Lemma elem_of_set_delete (x y : nat) (l : list nat) :
  x ∈ set_delete y l <-> x <> y /\ x ∈ l.
Proof. unfold set_delete. rewrite list_elem_of_filter. reflexivity. Qed.

Lemma set_delete_nodup (y : nat) (l : list nat) : NoDup l -> NoDup (set_delete y l).
Proof. apply NoDup_filter. Qed.

Lemma set_delete_length_le (y : nat) (l : list nat) : length (set_delete y l) <= length l.
Proof. unfold set_delete. apply length_filter. Qed.

Lemma set_delete_absent (y : nat) (l : list nat) : y ∉ l -> set_delete y l = l.
Proof.
  induction l as [|z l IH]; intros Hy; [reflexivity|].
  unfold set_delete in *. rewrite filter_cons.
  rewrite elem_of_cons in Hy. rewrite decide_True by (intros ->; tauto).
  f_equal. apply IH. tauto.
Qed.

Lemma set_delete_length (y : nat) (l : list nat) :
  NoDup l -> y ∈ l -> S (length (set_delete y l)) = length l.
Proof.
  induction l as [|z l IH]; intros Hnd Hy; [apply elem_of_nil in Hy; contradiction|].
  apply NoDup_cons in Hnd as [Hz Hnd].
  unfold set_delete in *. rewrite filter_cons. case_decide as Hne.
  - apply elem_of_cons in Hy as [->|Hy]; [contradiction|]. simpl. rewrite IH; auto.
  - subst z. fold (set_delete y l).
    rewrite set_delete_absent by exact Hz. reflexivity.
Qed.

(** *** Records kept, unresolved set shrinking *)

Section Relations.
Context {R C : Type}.
Implicit Types a b c : state R C.

Lemma keeps_refl a : keeps a a.
Proof. intros x r Hx. exact Hx. Qed.

Lemma keeps_trans a b c : keeps a b -> keeps b c -> keeps a c.
Proof. intros H1 H2 x r Hx. apply H2, H1, Hx. Qed.

Lemma shrinks_refl a : shrinks a a.
Proof.
  split; [apply keeps_refl|]. split; [intros x Hx; exact Hx|].
  split; [lia|]. intros x Hx Hx'. contradiction.
Qed.

Lemma shrinks_trans a b c : shrinks a b -> shrinks b c -> shrinks a c.
Proof.
  intros (Hk1 & Hs1 & Hl1 & Hr1) (Hk2 & Hs2 & Hl2 & Hr2).
  split; [eapply keeps_trans; eauto|]. split; [intros x Hx; apply Hs1, Hs2, Hx|].
  split; [lia|]. intros x Hxa Hxc.
  destruct (decide (x ∈ tokensToRecheck b)) as [Hxb|Hxb].
  - apply Hr2; assumption.
  - destruct (Hr1 x Hxa Hxb) as [r Hr]. exists r. apply Hk2, Hr.
Qed.

Lemma shrinks_keeps a b : shrinks a b -> keeps a b.
Proof. intros [Hk _]. exact Hk. Qed.

End Relations.

(** *** One loop iteration preserves the invariant *)

Section Steps.
Context {R C : Type} (bump : R -> C -> C) (good : R -> Prop) (cnt : C -> nat).
Hypothesis Hbump : forall r c, cnt (bump r c) = S (cnt c).

Lemma initial_step (P : list nat) (s : state R C) (id : nat) (o : option R) :
  Inv good cnt P s -> id ∉ P -> (forall r, o = Some r -> good r) ->
  Inv good cnt (P ++ [id])
    (match o with Some r => record_found bump id r s | None => mark_unresolved id s end) /\
  keeps s (match o with Some r => record_found bump id r s | None => mark_unresolved id s end).
Proof.
  intros [Hnd Hun Hcov Hgood Hsize Hcnt] Hid Ho.
  assert (Hnone : finalSnapshot s !! id = None).
  { destruct (finalSnapshot s !! id) eqn:E; [|reflexivity].
    exfalso. apply Hid, Hcov. right. rewrite E. eauto. }
  assert (Hnrc : id ∉ tokensToRecheck s) by (intros H; apply Hid, Hcov; left; exact H).
  unfold record_found, mark_unresolved.
  destruct o as [r|]; simpl; split.
  - constructor; simpl.
    + exact Hnd.
    + intros x Hx. simpl in *. rewrite lookup_insert_ne by (intros ->; contradiction).
      apply Hun, Hx.
    + intros x. rewrite elem_of_app, list_elem_of_singleton.
      destruct (decide (x = id)) as [->|Hne].
      * rewrite lookup_insert_eq. split; [tauto|]. intros _. right. eauto.
      * rewrite lookup_insert_ne by congruence. pose proof (Hcov x). tauto.
    + intros x r' Hx. destruct (decide (x = id)) as [->|Hne].
      * rewrite lookup_insert_eq in Hx. injection Hx as <-. apply Ho. reflexivity.
      * rewrite lookup_insert_ne in Hx by congruence. eapply Hgood, Hx.
    + rewrite map_size_insert_None by exact Hnone. rewrite length_app. simpl. lia.
    + rewrite Hbump, map_size_insert_None by exact Hnone. lia.
  - intros x r' Hx. simpl. rewrite lookup_insert_ne; [exact Hx|]. intros ->. congruence.
  - rewrite set_add_fresh by exact Hnrc. constructor; simpl.
    + apply NoDup_app. split; [exact Hnd|]. split; [|apply NoDup_singleton].
      intros x Hx Hx'. apply list_elem_of_singleton in Hx'. subst x. contradiction.
    + intros x Hx. simpl in *. apply elem_of_app in Hx as [Hx|Hx]; [apply Hun, Hx|].
      apply list_elem_of_singleton in Hx. subst x. exact Hnone.
    + intros x. rewrite !elem_of_app, !list_elem_of_singleton. pose proof (Hcov x). tauto.
    + exact Hgood.
    + rewrite !length_app. simpl. lia.
    + exact Hcnt.
  - intros x r' Hx. exact Hx.
Qed.

Lemma recheck_step (P : list nat) (s : state R C) (id : nat) (o : option R) :
  Inv good cnt P s -> (forall r, o = Some r -> good r) ->
  let s' := if set_has id (tokensToRecheck s)
            then match o with
                 | Some r => mark_resolved id (record_found bump id r s)
                 | None => s
                 end
            else s in
  Inv good cnt P s' /\ shrinks s s'.
Proof.
  intros HI Ho s'. subst s'.
  destruct (set_has id (tokensToRecheck s)) eqn:E; [|split; [exact HI | apply shrinks_refl]].
  apply set_has_spec in E.
  destruct o as [r|]; [|split; [exact HI | apply shrinks_refl]].
  destruct HI as [Hnd Hun Hcov Hgood Hsize Hcnt].
  assert (Hnone : finalSnapshot s !! id = None) by (apply Hun, E).
  unfold mark_resolved, record_found. split; [constructor|]; simpl.
  - apply set_delete_nodup, Hnd.
  - intros x Hx. simpl in *. apply elem_of_set_delete in Hx as [Hne Hx].
    rewrite lookup_insert_ne by congruence. apply Hun, Hx.
  - intros x. destruct (decide (x = id)) as [->|Hne].
    + rewrite lookup_insert_eq. split; [intros _; apply Hcov; left; exact E|].
      intros _. right. eauto.
    + rewrite elem_of_set_delete, lookup_insert_ne by congruence.
      pose proof (Hcov x). tauto.
  - intros x r' Hx. destruct (decide (x = id)) as [->|Hne].
    + rewrite lookup_insert_eq in Hx. injection Hx as <-. apply Ho. reflexivity.
    + rewrite lookup_insert_ne in Hx by congruence. eapply Hgood, Hx.
  - rewrite map_size_insert_None by exact Hnone.
    pose proof (set_delete_length id _ Hnd E). lia.
  - rewrite Hbump, map_size_insert_None by exact Hnone. lia.
  - split; [|split; [|split]].
    + intros x r' Hx. simpl. rewrite lookup_insert_ne; [exact Hx|]. intros ->. congruence.
    + intros x Hx. simpl in *. apply elem_of_set_delete in Hx. tauto.
    + apply set_delete_length_le.
    + intros x Hx Hx'. simpl in *. destruct (decide (x = id)) as [->|Hne].
      * rewrite lookup_insert_eq. eauto.
      * exfalso. apply Hx'. apply elem_of_set_delete. tauto.
Qed.

Lemma initial_items_inv (items : list (nat * option R)) (P : list nat) (s : state R C) :
  Inv good cnt P s -> NoDup (P ++ map fst items) ->
  (forall id r, (id, Some r) ∈ items -> good r) ->
  Inv good cnt (P ++ map fst items) (initial_items bump items s) /\
  keeps s (initial_items bump items s).
Proof.
  revert P s. induction items as [|[id o] items IH]; intros P s HI Hnd Hg; simpl in *.
  - rewrite app_nil_r. split; [exact HI | apply keeps_refl].
  - replace (P ++ id :: map fst items) with ((P ++ [id]) ++ map fst items) in *
      by (rewrite <- app_assoc; reflexivity).
    assert (Hid : id ∉ P).
    { apply NoDup_app in Hnd as [Hnd _]. apply NoDup_app in Hnd as (_ & Hd & _).
      intros Hin. apply (Hd id Hin). apply list_elem_of_singleton. reflexivity. }
    destruct (initial_step P s id o HI Hid) as [HI' Hk].
    { intros r ->. apply (Hg id r). left. }
    destruct (IH _ _ HI' Hnd) as [HI'' Hk'].
    { intros id' r Hin. apply (Hg id' r). right. exact Hin. }
    split; [exact HI'' | eapply keeps_trans; eauto].
Qed.

Lemma recheck_items_inv (items : list (nat * option R)) (P : list nat) (s : state R C) :
  Inv good cnt P s ->
  (forall id r, (id, Some r) ∈ items -> good r) ->
  Inv good cnt P (recheck_items bump items s) /\ shrinks s (recheck_items bump items s).
Proof.
  revert s. induction items as [|[id o] items IH]; intros s HI Hg; simpl.
  - split; [exact HI | apply shrinks_refl].
  - destruct (recheck_step P s id o HI) as [HI' Hk].
    { intros r ->. apply (Hg id r). left. }
    destruct (IH _ HI') as [HI'' Hk'].
    { intros id' r Hin. apply (Hg id' r). right. exact Hin. }
    split; [exact HI'' | eapply shrinks_trans; eauto].
Qed.

End Steps.

(** *** Traces *)

Lemma final_state_app {St : Type} (s : St) (t1 t2 : list St) :
  final_state s (t1 ++ t2) = final_state (final_state s t1) t2.
Proof. revert s. induction t1 as [|x t1 IH]; intros s; simpl; [reflexivity | apply IH]. Qed.

Lemma linked_app {St : Type} (Rel : St -> St -> Prop) (s : St) (t1 t2 : list St) :
  linked Rel s (t1 ++ t2) <-> linked Rel s t1 /\ linked Rel (final_state s t1) t2.
Proof.
  revert s. induction t1 as [|x t1 IH]; intros s; simpl; [tauto|].
  rewrite IH. tauto.
Qed.

Lemma linked_impl {St : Type} (Rel Rel' : St -> St -> Prop) (s : St) (tr : list St) :
  (forall a b, Rel a b -> Rel' a b) -> linked Rel s tr -> linked Rel' s tr.
Proof.
  intros Himp. revert s. induction tr as [|x tr IH]; intros s; simpl; [tauto|].
  intros [H1 H2]. split; [apply Himp, H1 | apply IH, H2].
Qed.

(** Along a trace linked by a reflexive and transitive relation, the
    relation holds between any state and any later one. *)
Lemma linked_lookup {St : Type} (Rel : St -> St -> Prop)
    (Hrefl : forall a, Rel a a) (Htrans : forall a b c, Rel a b -> Rel b c -> Rel a c)
    (s : St) (tr : list St) :
  linked Rel s tr ->
  forall i j a b, i <= j -> (s :: tr) !! i = Some a -> (s :: tr) !! j = Some b -> Rel a b.
Proof.
  revert s. induction tr as [|x tr IH]; intros s Hl i j a b Hij Hi Hj.
  - destruct i; [|destruct i; discriminate]. destruct j; [|destruct j; discriminate].
    simpl in *. injection Hi as <-. injection Hj as <-. apply Hrefl.
  - destruct Hl as [Hsx Hl]. destruct i as [|i].
    + simpl in Hi. injection Hi as <-. destruct j as [|j].
      * simpl in Hj. injection Hj as <-. apply Hrefl.
      * apply (Htrans _ x); [exact Hsx|]. apply (IH x Hl 0 j); [lia | reflexivity | exact Hj].
    + destruct j as [|j]; [lia|]. apply (IH x Hl i j); [lia | exact Hi | exact Hj].
Qed.

(** A property that every step establishes holds at every later state. *)
Lemma linked_lookup_target {St : Type} (Q : St -> Prop) (Rel : St -> St -> Prop)
    (HQ : forall a b, Rel a b -> Q b) (s : St) (tr : list St) :
  Q s -> linked Rel s tr -> forall i a, (s :: tr) !! i = Some a -> Q a.
Proof.
  revert s. induction tr as [|x tr IH]; intros s Hs Hl i a Hi.
  - destruct i; [|destruct i; discriminate]. simpl in Hi. injection Hi as <-. exact Hs.
  - destruct Hl as [Hsx Hl]. destruct i as [|i].
    + simpl in Hi. injection Hi as <-. exact Hs.
    + apply (IH x (HQ _ _ Hsx) Hl i a Hi).
Qed.

Lemma lookup_after_prefix {St : Type} (s : St) (t1 t2 : list St) (k : nat) :
  (s :: t1 ++ t2) !! (length t1 + k) = (final_state s t1 :: t2) !! k.
Proof.
  revert s. induction t1 as [|x t1 IH]; intros s; simpl; [reflexivity|].
  apply (IH x).
Qed.

Lemma length_scan {St : Type} (f : list nat -> St -> St) (bs : list (list nat)) (s : St) :
  length (scan f bs s) = length bs.
Proof. revert s. induction bs as [|b bs IH]; intros s; simpl; [reflexivity | rewrite IH; reflexivity]. Qed.

(** *** A whole run *)

Section RunFacts.
Context {R C : Type} (good : R -> Prop) (cnt : C -> nat)
        (group0 : list nat -> state R C -> state R C)
        (groupP : nat -> list nat -> state R C -> state R C) (B N : nat).

Hypothesis Hg0 : forall P b s,
  Inv good cnt P s -> NoDup (P ++ b) ->
  Inv good cnt (P ++ b) (group0 b s) /\ keeps s (group0 b s).
Hypothesis HgP : forall P pass b s,
  Inv good cnt P s -> Inv good cnt P (groupP pass b s) /\ shrinks s (groupP pass b s).

Let rel (a b : state R C) : Prop := shrinks a b /\ unresolved_unrecorded b.

Lemma scan0_inv (bs : list (list nat)) (P : list nat) (s : state R C) :
  Inv good cnt P s -> NoDup (P ++ concat bs) ->
  Inv good cnt (P ++ concat bs) (final_state s (scan group0 bs s)) /\
  linked keeps s (scan group0 bs s).
Proof.
  revert P s. induction bs as [|b bs IH]; intros P s HI Hnd; simpl in *.
  - rewrite app_nil_r. split; [exact HI | exact I].
  - rewrite app_assoc in *. apply NoDup_app in Hnd as Hnd'. destruct Hnd' as [Hpb _].
    destruct (Hg0 P b s HI Hpb) as [HI' Hk].
    destruct (IH _ _ HI' Hnd) as [HI'' Hl].
    split; [exact HI'' | split; [exact Hk | exact Hl]].
Qed.

Lemma scanP_inv (pass : nat) (bs : list (list nat)) (P : list nat) (s : state R C) :
  Inv good cnt P s ->
  Inv good cnt P (final_state s (scan (groupP pass) bs s)) /\
  linked rel s (scan (groupP pass) bs s).
Proof.
  revert s. induction bs as [|b bs IH]; intros s HI; simpl.
  - split; [exact HI | exact I].
  - destruct (HgP P pass b s HI) as [HI' Hk].
    destruct (IH _ HI') as [HI'' Hl].
    split; [exact HI''|]. split; [|exact Hl]. split; [exact Hk | apply (inv_unrecorded _ _ _ _ HI')].
Qed.

Lemma passes_inv (passes : list nat) (P : list nat) (s : state R C) :
  Inv good cnt P s ->
  Inv good cnt P (final_state s (recheck_passes tokensToRecheck groupP B passes s)) /\
  linked rel s (recheck_passes tokensToRecheck groupP B passes s).
Proof.
  revert s. induction passes as [|pass passes IH]; intros s HI; simpl.
  - split; [exact HI | exact I].
  - case_bool_decide; [split; [exact HI | exact I]|].
    destruct (scanP_inv pass (Batching.recheck_batches B pass (tokensToRecheck s)) P s HI)
      as [HI' Hl].
    destruct (IH _ HI') as [HI'' Hl'].
    rewrite final_state_app, linked_app. split; [exact HI''|]. split; assumption.
Qed.

Lemma run_inv (s0 : state R C) :
  Inv good cnt [] s0 ->
  Inv good cnt (concat (Batching.batches B N))
    (run_final tokensToRecheck group0 groupP B N s0) /\
  linked keeps s0 (run_groups tokensToRecheck group0 groupP B N s0) /\
  exists rest,
    run_groups tokensToRecheck group0 groupP B N s0
      = scan group0 (Batching.batches B N) s0 ++ rest /\
    unresolved_unrecorded (final_state s0 (scan group0 (Batching.batches B N) s0)) /\
    linked rel (final_state s0 (scan group0 (Batching.batches B N) s0)) rest.
Proof.
  intros HI.
  destruct (scan0_inv (Batching.batches B N) [] s0 HI (BatchingFacts.batches_nodup B N))
    as [HI1 Hl1].
  simpl in HI1.
  set (t0 := scan group0 (Batching.batches B N) s0) in *.
  set (rest := if bool_decide (tokensToRecheck (final_state s0 t0) = []) then []
               else recheck_passes tokensToRecheck groupP B [1; 2; 3] (final_state s0 t0)).
  assert (Hrest : Inv good cnt (concat (Batching.batches B N)) (final_state (final_state s0 t0) rest)
                  /\ linked rel (final_state s0 t0) rest).
  { subst rest. case_bool_decide; [split; [exact HI1 | exact I]|]. apply passes_inv, HI1. }
  destruct Hrest as [HI2 Hl2].
  assert (Hrun : run_groups tokensToRecheck group0 groupP B N s0 = t0 ++ rest) by reflexivity.
  unfold run_final. rewrite Hrun, final_state_app, linked_app.
  split; [exact HI2|]. split; [split; [exact Hl1|]|].
  - eapply linked_impl; [|exact Hl2]. intros a b [Hs _]. apply shrinks_keeps, Hs.
  - exists rest. split; [reflexivity|]. split; [apply (inv_unrecorded _ _ _ _ HI1) | exact Hl2].
Qed.

End RunFacts.

Lemma map_fst_pairs {A : Type} (f : nat -> A) (l : list nat) :
  map fst (map (fun x => (x, f x)) l) = l.
Proof. induction l as [|x l IH]; simpl; [reflexivity | rewrite IH; reflexivity]. Qed.

Lemma items_good_map {A : Type} (good : A -> Prop) (f : nat -> option A) (l : list nat) :
  (forall x r, f x = Some r -> good r) ->
  forall id r, (id, Some r) ∈ map (fun x => (x, f x)) l -> good r.
Proof.
  intros Hf id r. induction l as [|x l IH]; simpl; intros Hin.
  - apply elem_of_nil in Hin. contradiction.
  - apply elem_of_cons in Hin as [Heq|Hin]; [|apply IH, Hin].
    injection Heq as -> Hx. apply (Hf x). symmetry. exact Hx.
Qed.

Lemma owner_found_valid (o : option string) (a : string) :
  owner_found o = Some a -> o = Some a /\ valid_owner a.
Proof.
  destruct o as [a'|]; simpl; [|discriminate].
  case_bool_decide as H; [|discriminate]. intros [= ->]. split; [reflexivity | exact H].
Qed.

Lemma inv_empty {R C : Type} (good : R -> Prop) (cnt : C -> nat) (c : C) :
  cnt c = 0 -> Inv good cnt [] (mkState ∅ [] c).
Proof.
  intros Hc. constructor; simpl.
  - constructor.
  - intros x Hx. apply elem_of_nil in Hx. contradiction.
  - intros x. rewrite lookup_empty. split; [intros [H|[r H]]; [exact H | discriminate]|].
    intros H. apply elem_of_nil in H. contradiction.
  - intros x r Hx. rewrite lookup_empty in Hx. discriminate.
  - rewrite map_size_empty. reflexivity.
  - rewrite map_size_empty. exact Hc.
Qed.

End EngineFacts.

(* ------------------------------------------------------------------ *)
(** ** The Infinity snapshotter *)

Module InfinityFacts.
Import Engine Props EngineFacts Infinity.

Lemma infinity_initial_group_items net sb batch s :
  initial_group net sb batch s =
  initial_items bump_found
    (map (fun id => (id, (fun a => {| inf_owner := a; inf_block := sb |})
                           <$> owner_found (net 0 id))) batch) s.
Proof.
  unfold initial_group, getTokenOwnerBatch. revert s.
  induction batch as [|id batch IH]; intros s; simpl; [reflexivity|].
  rewrite IH. destruct (owner_found (net 0 id)); reflexivity.
Qed.

Lemma infinity_recheck_group_items net sb pass batch s :
  recheck_group net sb pass batch s =
  match pass with
  | O => s
  | S _ => recheck_items bump_found
             (map (fun id => (id, (fun a => {| inf_owner := a; inf_block := sb |})
                                    <$> owner_found (net pass id))) batch) s
  end.
Proof.
  unfold recheck_group. destruct pass as [|p]; simpl; [reflexivity|].
  unfold getTokenOwnerBatch. revert s.
  induction batch as [|id batch IH]; intros s; simpl; [reflexivity|].
  rewrite IH. f_equal.
  destruct (set_has id (tokensToRecheck s)); simpl; [|reflexivity].
  destruct (owner_found (net (S p) id)); reflexivity.
Qed.

Lemma infinity_found_good (net : nat -> nat -> option string) sb pass :
  forall id r,
    (fun a => {| inf_owner := a; inf_block := sb |}) <$> owner_found (net pass id) = Some r ->
    valid_owner (inf_owner r).
Proof.
  intros id r H. destruct (owner_found (net pass id)) as [a|] eqn:E; simpl in H; [|discriminate].
  injection H as <-. apply (owner_found_valid _ _ E).
Qed.

Lemma infinity_run_inv net sb B :
  Inv (fun r => valid_owner (inf_owner r)) (fun n => n)
    (concat (Batching.batches B TOTAL_SUPPLY)) (snapshotNFTs net sb B) /\
  linked keeps empty (run_groups net sb B) /\
  exists rest,
    run_groups net sb B = scan (initial_group net sb) (Batching.batches B TOTAL_SUPPLY) empty ++ rest /\
    unresolved_unrecorded
      (final_state empty (scan (initial_group net sb) (Batching.batches B TOTAL_SUPPLY) empty)) /\
    linked (fun a b => shrinks a b /\ unresolved_unrecorded b)
      (final_state empty (scan (initial_group net sb) (Batching.batches B TOTAL_SUPPLY) empty)) rest.
Proof.
  apply (run_inv (fun r => valid_owner (inf_owner r)) (fun n => n)).
  - intros P b s HI Hnd. rewrite infinity_initial_group_items.
    pose proof (initial_items_inv bump_found (fun r => valid_owner (inf_owner r)) (fun n => n)
                  (fun _ _ => eq_refl)
                  (map (fun id => (id, (fun a => {| inf_owner := a; inf_block := sb |})
                                         <$> owner_found (net 0 id))) b) P s HI) as H.
    rewrite map_fst_pairs in H. apply H; [exact Hnd|].
    apply items_good_map, infinity_found_good.
  - intros P pass b s HI. rewrite infinity_recheck_group_items. destruct pass as [|p].
    + split; [exact HI | apply shrinks_refl].
    + apply (recheck_items_inv bump_found _ (fun n => n) (fun _ _ => eq_refl) _ P s HI).
      apply items_good_map, infinity_found_good.
  - apply inv_empty. reflexivity.
Qed.

End InfinityFacts.

(* ------------------------------------------------------------------ *)
(** ** The Panda snapshotter *)

Module PandaFacts.
Import Engine Props EngineFacts Panda.

(** *** Per-key counters *)

Lemma sum_list_zeros (l : list nat) : (forall x, x ∈ l -> x = 0) -> sum_list l = 0.
Proof.
  induction l as [|x l IH]; intros H; simpl; [reflexivity|].
  rewrite (H x) by left. rewrite IH; [reflexivity|]. intros y Hy. apply H. right. exact Hy.
Qed.

Lemma total_count_insert_fresh (m : gmap string nat) (k : string) (x : nat) :
  m !! k = None -> total_count (<[k := x]> m) = x + total_count m.
Proof.
  intros Hk. unfold total_count.
  pose proof (Permutation_map snd (map_to_list_insert m k x Hk)) as Hp.
  rewrite Hp. reflexivity.
Qed.

(** [counts[k] = (counts[k] || 0) + 1] adds one to the total. *)
Lemma total_count_bump (m : gmap string nat) (k : string) :
  total_count (<[k := S (default 0 (m !! k))]> m) = S (total_count m).
Proof.
  destruct (m !! k) as [v|] eqn:E; simpl.
  - assert (H1 : <[k := S v]> m = <[k := S v]> (delete k m))
      by (symmetry; apply insert_delete_eq).
    assert (H2 : total_count m = total_count (<[k := v]> (delete k m)))
      by (rewrite insert_delete_id by exact E; reflexivity).
    rewrite H1, H2, !total_count_insert_fresh by apply lookup_delete_eq. reflexivity.
  - rewrite total_count_insert_fresh by exact E. reflexivity.
Qed.

Lemma total_count_empty_stats (chains : list (string * chainConfig)) :
  total_count (list_to_map (map (fun '(n, _) => (n, 0)) chains)) = 0.
Proof.
  unfold total_count. apply sum_list_zeros. intros x Hx.
  apply list_elem_of_In, in_map_iff in Hx as [[k v] [<- Hkv]].
  apply list_elem_of_In, elem_of_map_to_list, elem_of_list_to_map_2, list_elem_of_In,
    in_map_iff in Hkv as [[n c] [Heq _]].
  injection Heq as _ <-. reflexivity.
Qed.

(** *** The groups as loops over found records *)

Lemma first_found_valid cr id n a : first_found cr id = Some (n, a) -> valid_owner a.
Proof.
  induction cr as [|[[name results]|] cr IH]; simpl; [discriminate| |exact IH].
  destruct ((results ≫= find_result id) ≫= (fun r => owner_found (owner r))) as [a'|] eqn:E;
    [|exact IH].
  intros [= <- <-]. destruct (results ≫= find_result id) as [r|]; simpl in E; [|discriminate].
  apply (owner_found_valid _ _ E).
Qed.

Lemma panda_found_good chains cr :
  forall id r,
    (fun '(n, a) => record_of chains n a) <$> first_found cr id = Some r ->
    valid_owner (p_owner r).
Proof.
  intros id r H. destruct (first_found cr id) as [[n a]|] eqn:E; simpl in H; [|discriminate].
  injection H as <-. apply (first_found_valid _ _ _ _ E).
Qed.

Lemma panda_initial_group_items chains net batch s :
  initial_group chains net batch s =
  initial_items bump_chain
    (map (fun id => (id, (fun '(n, a) => record_of chains n a)
                           <$> first_found (initial_chain_results chains net batch) id)) batch) s.
Proof.
  unfold initial_group. generalize (initial_chain_results chains net batch) as cr. intros cr.
  revert s. induction batch as [|id batch IH]; intros s; simpl; [reflexivity|].
  rewrite IH. destruct (first_found cr id) as [[n a]|]; reflexivity.
Qed.

Lemma panda_recheck_group_items chains net pass batch s :
  recheck_group chains net pass batch s =
  recheck_items bump_chain
    (map (fun id => (id, (fun '(n, a) => record_of chains n a)
                           <$> first_found (recheck_chain_results chains net pass batch) id))
         batch) s.
Proof.
  unfold recheck_group. generalize (recheck_chain_results chains net pass batch) as cr. intros cr.
  revert s. induction batch as [|id batch IH]; intros s; simpl; [reflexivity|].
  rewrite IH. f_equal.
  destruct (set_has id (tokensToRecheck s)); simpl; [|reflexivity].
  destruct (first_found cr id) as [[n a]|]; reflexivity.
Qed.

Lemma panda_run_inv chains net B N :
  Inv (fun r => valid_owner (p_owner r)) total_count
    (concat (Batching.batches B N)) (snapshotNFTs chains net B N) /\
  linked keeps (empty chains) (run_groups chains net B N) /\
  exists rest,
    run_groups chains net B N
      = scan (initial_group chains net) (Batching.batches B N) (empty chains) ++ rest /\
    unresolved_unrecorded
      (final_state (empty chains) (scan (initial_group chains net) (Batching.batches B N)
                                        (empty chains))) /\
    linked (fun a b => shrinks a b /\ unresolved_unrecorded b)
      (final_state (empty chains) (scan (initial_group chains net) (Batching.batches B N)
                                        (empty chains))) rest.
Proof.
  apply (run_inv (fun r => valid_owner (p_owner r)) total_count).
  - intros P b s HI Hnd. rewrite panda_initial_group_items.
    pose proof (initial_items_inv bump_chain (fun r => valid_owner (p_owner r)) total_count
                  (fun r c => total_count_bump c (p_chain r))
                  (map (fun id => (id, (fun '(n, a) => record_of chains n a)
                           <$> first_found (initial_chain_results chains net b) id)) b)
                  P s HI) as H.
    rewrite map_fst_pairs in H. apply H; [exact Hnd|].
    apply items_good_map, panda_found_good.
  - intros P pass b s HI. rewrite panda_recheck_group_items.
    apply (recheck_items_inv bump_chain _ total_count (fun r c => total_count_bump c (p_chain r))
             _ P s HI).
    apply items_good_map, panda_found_good.
  - apply inv_empty, total_count_empty_stats.
Qed.

End PandaFacts.

(* ------------------------------------------------------------------ *)
(** ** Whole runs of the two EVM snapshotters *)

Module RunClaims.
Import Engine Props EngineFacts.

Lemma inv_partition {R C : Type} (good : R -> Prop) (cnt : C -> nat) (N : nat) (s : state R C) :
  Inv good cnt (seq 1 N) s ->
  (forall id, 1 <= id <= N ->
     (exists r, finalSnapshot s !! id = Some r /\ good r /\ id ∉ tokensToRecheck s) \/
     (finalSnapshot s !! id = None /\ id ∈ tokensToRecheck s)) /\
  (forall id r, finalSnapshot s !! id = Some r -> 1 <= id <= N /\ good r) /\
  NoDup (tokensToRecheck s) /\
  size (finalSnapshot s) + length (tokensToRecheck s) = N.
Proof.
  intros [Hnd Hun Hcov Hgood Hsize Hcnt]. rewrite length_seq in Hsize.
  split; [|split; [|split; [exact Hnd | exact Hsize]]].
  - intros id Hid. assert (Hin : id ∈ seq 1 N) by (apply elem_of_seq; lia).
    apply Hcov in Hin as [Hrc|[r Hr]].
    + right. split; [apply Hun, Hrc | exact Hrc].
    + left. exists r. split; [exact Hr|]. split; [eapply Hgood, Hr|].
      intros Hrc. apply Hun in Hrc. congruence.
  - intros id r Hr. split; [|eapply Hgood, Hr].
    assert (Hin : id ∈ seq 1 N) by (apply Hcov; right; eauto).
    apply elem_of_seq in Hin. lia.
Qed.

(** After the initial sweep, the unresolved set of a later state is part of
    the one of an earlier state, no larger, and an id has left it exactly
    when it has a record. *)
Lemma shrinks_after_sweep {R C : Type} (s0 : state R C) (t0 rest : list (state R C)) :
  unresolved_unrecorded (final_state s0 t0) ->
  linked (fun a b => shrinks a b /\ unresolved_unrecorded b) (final_state s0 t0) rest ->
  forall i j a b, length t0 <= i -> i <= j ->
    (s0 :: t0 ++ rest) !! i = Some a -> (s0 :: t0 ++ rest) !! j = Some b ->
    tokensToRecheck b ⊆ tokensToRecheck a /\
    length (tokensToRecheck b) <= length (tokensToRecheck a) /\
    (forall x, x ∈ tokensToRecheck a ->
       (x ∉ tokensToRecheck b <-> is_Some (finalSnapshot b !! x))).
Proof.
  intros Hu Hl i j a b Hi Hij Ha Hb.
  replace i with (length t0 + (i - length t0)) in Ha by lia.
  replace j with (length t0 + (j - length t0)) in Hb by lia.
  rewrite lookup_after_prefix in Ha, Hb.
  assert (Hs : shrinks a b).
  { apply (linked_lookup shrinks shrinks_refl shrinks_trans (final_state s0 t0) rest
             (linked_impl _ _ _ _ (fun a b H => proj1 H) Hl) (i - length t0) (j - length t0));
      [lia | exact Ha | exact Hb]. }
  assert (Hub : unresolved_unrecorded b).
  { apply (linked_lookup_target unresolved_unrecorded _ (fun a b H => proj2 H) _ rest Hu Hl
             (j - length t0) b Hb). }
  destruct Hs as (_ & Hsub & Hlen & Hres).
  split; [exact Hsub|]. split; [exact Hlen|].
  intros x Hx. split; [apply Hres, Hx|].
  intros [r Hr] Hxb. apply Hub in Hxb. congruence.
Qed.

Lemma keeps_along {R C : Type} (s0 : state R C) (tr : list (state R C)) :
  linked keeps s0 tr ->
  forall i j a b x r, i <= j ->
    (s0 :: tr) !! i = Some a -> (s0 :: tr) !! j = Some b ->
    finalSnapshot a !! x = Some r -> finalSnapshot b !! x = Some r.
Proof.
  intros Hl i j a b x r Hij Ha Hb Hx.
  apply (linked_lookup keeps keeps_refl keeps_trans s0 tr Hl i j a b Hij Ha Hb x r Hx).
Qed.

(** C1: after a complete run of either EVM snapshotter (Infinity over ids
    [1..250], Panda over ids [1..TOTAL_SUPPLY]), every id in range is either
    recorded with a non-null, non-zero owner and not unresolved, or has no
    record and is unresolved; every record is for an id in range and has a
    non-null, non-zero owner; the unresolved ids are distinct and the
    reported missing count is their number. *)
Theorem snapshot_ids_partitioned (net_inf : nat -> nat -> option string) (sb : nat)
    (chains : list (string * Panda.chainConfig)) (net : nat -> string -> nat -> option string)
    (B N : nat) :
  0 < B ->
  (let s := Infinity.snapshotNFTs net_inf sb B in
   (forall id, 1 <= id <= Infinity.TOTAL_SUPPLY ->
      (exists r, finalSnapshot s !! id = Some r /\ valid_owner (Infinity.inf_owner r) /\
                 id ∉ Infinity.missingTokens s) \/
      (finalSnapshot s !! id = None /\ id ∈ Infinity.missingTokens s)) /\
   (forall id r, finalSnapshot s !! id = Some r ->
      1 <= id <= Infinity.TOTAL_SUPPLY /\ valid_owner (Infinity.inf_owner r)) /\
   NoDup (Infinity.missingTokens s) /\
   Infinity.tokens_not_found s = length (Infinity.missingTokens s)) /\
  (let s := Panda.snapshotNFTs chains net B N in
   (forall id, 1 <= id <= N ->
      (exists r, finalSnapshot s !! id = Some r /\ valid_owner (Panda.p_owner r) /\
                 id ∉ tokensToRecheck s) \/
      (finalSnapshot s !! id = None /\ id ∈ tokensToRecheck s)) /\
   (forall id r, finalSnapshot s !! id = Some r ->
      1 <= id <= N /\ valid_owner (Panda.p_owner r)) /\
   NoDup (tokensToRecheck s) /\
   Panda.missing N s = length (tokensToRecheck s)).
Proof.
  intros HB. split.
  - destruct (InfinityFacts.infinity_run_inv net_inf sb B) as [HI _].
    rewrite BatchingFacts.batches_concat in HI by exact HB.
    pose proof (inv_cnt _ _ _ _ HI) as Hc.
    destruct (inv_partition _ _ _ _ HI) as (H1 & H2 & H3 & H4).
    split; [exact H1|]. split; [exact H2|]. split; [exact H3|].
    unfold Infinity.tokens_not_found, Infinity.missingTokens. simpl in Hc. lia.
  - destruct (PandaFacts.panda_run_inv chains net B N) as [HI _].
    rewrite BatchingFacts.batches_concat in HI by exact HB.
    destruct (inv_partition _ _ _ _ HI) as (H1 & H2 & H3 & H4).
    split; [exact H1|]. split; [exact H2|]. split; [exact H3|].
    unfold Panda.missing, Panda.totalFound. lia.
Qed.

Lemma snapshot_ids_partitioned_witness :
  0 < 25 /\
  NoDup (Infinity.missingTokens (Infinity.snapshotNFTs (fun _ _ => None) 100 25)) /\
  NoDup (tokensToRecheck (Panda.snapshotNFTs [] (fun _ _ _ => None) 25 10)).
Proof.
  destruct (snapshot_ids_partitioned (fun _ _ => None) 100 [] (fun _ _ _ => None) 25 10
              ltac:(lia)) as [(_ & _ & H1 & _) (_ & _ & H2 & _)].
  split; [lia|]. split; [exact H1 | exact H2].
Defined.

(** C3: from the end of the initial sweep on, in both EVM snapshotters, the
    unresolved set of any later state is contained in the one of any earlier
    state (no id is ever added back) and is no larger; an id has left it
    exactly when it has been given a record. *)
Theorem unresolved_set_only_shrinks (net_inf : nat -> nat -> option string) (sb : nat)
    (chains : list (string * Panda.chainConfig)) (net : nat -> string -> nat -> option string)
    (B N : nat) :
  (forall i j a b,
     length (Batching.batches B Infinity.TOTAL_SUPPLY) <= i -> i <= j ->
     (Infinity.empty :: Infinity.run_groups net_inf sb B) !! i = Some a ->
     (Infinity.empty :: Infinity.run_groups net_inf sb B) !! j = Some b ->
     tokensToRecheck b ⊆ tokensToRecheck a /\
     length (tokensToRecheck b) <= length (tokensToRecheck a) /\
     (forall x, x ∈ tokensToRecheck a ->
        (x ∉ tokensToRecheck b <-> is_Some (finalSnapshot b !! x)))) /\
  (forall i j a b,
     length (Batching.batches B N) <= i -> i <= j ->
     (Panda.empty chains :: Panda.run_groups chains net B N) !! i = Some a ->
     (Panda.empty chains :: Panda.run_groups chains net B N) !! j = Some b ->
     tokensToRecheck b ⊆ tokensToRecheck a /\
     length (tokensToRecheck b) <= length (tokensToRecheck a) /\
     (forall x, x ∈ tokensToRecheck a ->
        (x ∉ tokensToRecheck b <-> is_Some (finalSnapshot b !! x)))).
Proof.
  split.
  - destruct (InfinityFacts.infinity_run_inv net_inf sb B) as (_ & _ & rest & Heq & Hu & Hl).
    rewrite Heq. intros i j a b Hi. rewrite <- (length_scan (Infinity.initial_group net_inf sb) _
                                                    Infinity.empty) in Hi.
    apply (shrinks_after_sweep _ _ _ Hu Hl i j a b Hi).
  - destruct (PandaFacts.panda_run_inv chains net B N) as (_ & _ & rest & Heq & Hu & Hl).
    rewrite Heq. intros i j a b Hi. rewrite <- (length_scan (Panda.initial_group chains net) _
                                                    (Panda.empty chains)) in Hi.
    apply (shrinks_after_sweep _ _ _ Hu Hl i j a b Hi).
Qed.

(** C4: in both EVM snapshotters, a record present in some state of a run
    (after any group of any pass) is present, unchanged, in every later
    state: no later group or pass overwrites it. *)
Theorem records_never_overwritten (net_inf : nat -> nat -> option string) (sb : nat)
    (chains : list (string * Panda.chainConfig)) (net : nat -> string -> nat -> option string)
    (B N : nat) :
  (forall i j a b x r, i <= j ->
     (Infinity.empty :: Infinity.run_groups net_inf sb B) !! i = Some a ->
     (Infinity.empty :: Infinity.run_groups net_inf sb B) !! j = Some b ->
     finalSnapshot a !! x = Some r -> finalSnapshot b !! x = Some r) /\
  (forall i j a b x r, i <= j ->
     (Panda.empty chains :: Panda.run_groups chains net B N) !! i = Some a ->
     (Panda.empty chains :: Panda.run_groups chains net B N) !! j = Some b ->
     finalSnapshot a !! x = Some r -> finalSnapshot b !! x = Some r).
Proof.
  split.
  - apply keeps_along, (InfinityFacts.infinity_run_inv net_inf sb B).
  - apply keeps_along, (PandaFacts.panda_run_inv chains net B N).
Qed.

End RunClaims.

(* ------------------------------------------------------------------ *)
(** ** The cross-chain dispatcher's choice of chain *)

Module DispatcherClaims.
Import Engine Props EngineFacts Panda.

(** *** What one group writes for one id *)

Section Items.
Context {R C : Type} (bump : R -> C -> C).

Lemma initial_items_frame (items : list (nat * option R)) (s : state R C) (id : nat) :
  id ∉ map fst items ->
  finalSnapshot (initial_items bump items s) !! id = finalSnapshot s !! id.
Proof.
  revert s. induction items as [|[id' o] items IH]; intros s Hid; simpl in *; [reflexivity|].
  apply not_elem_of_cons in Hid as [Hne Hid]. rewrite IH by exact Hid.
  destruct o; simpl; [|reflexivity]. apply lookup_insert_ne. congruence.
Qed.

Lemma initial_items_lookup (items : list (nat * option R)) (s : state R C) (id : nat) (r : R) :
  NoDup (map fst items) -> (id, Some r) ∈ items ->
  finalSnapshot (initial_items bump items s) !! id = Some r.
Proof.
  revert s. induction items as [|[id' o] items IH]; intros s Hnd Hin; simpl in *.
  - apply elem_of_nil in Hin. contradiction.
  - apply NoDup_cons in Hnd as [Hid' Hnd].
    apply elem_of_cons in Hin as [[= <- <-]|Hin].
    + rewrite initial_items_frame by exact Hid'. simpl. apply lookup_insert_eq.
    + apply IH; assumption.
Qed.

Lemma recheck_items_frame (items : list (nat * option R)) (s : state R C) (id : nat) :
  id ∉ map fst items ->
  finalSnapshot (recheck_items bump items s) !! id = finalSnapshot s !! id.
Proof.
  revert s. induction items as [|[id' o] items IH]; intros s Hid; simpl in *; [reflexivity|].
  apply not_elem_of_cons in Hid as [Hne Hid]. rewrite IH by exact Hid.
  destruct (set_has id' (tokensToRecheck s)); [|reflexivity].
  destruct o; simpl; [|reflexivity]. apply lookup_insert_ne. congruence.
Qed.

Lemma recheck_items_lookup (items : list (nat * option R)) (s : state R C) (id : nat) (r : R) :
  NoDup (map fst items) -> (id, Some r) ∈ items -> id ∈ tokensToRecheck s ->
  finalSnapshot (recheck_items bump items s) !! id = Some r.
Proof.
  revert s. induction items as [|[id' o] items IH]; intros s Hnd Hin Hrc; simpl in *.
  - apply elem_of_nil in Hin. contradiction.
  - apply NoDup_cons in Hnd as [Hid' Hnd].
    apply elem_of_cons in Hin as [[= <- <-]|Hin].
    + rewrite recheck_items_frame by exact Hid'.
      replace (set_has id (tokensToRecheck s)) with true by (symmetry; apply set_has_spec, Hrc).
      simpl. apply lookup_insert_eq.
    + apply IH; [exact Hnd | exact Hin|].
      assert (Hne : id <> id').
      { intros ->. apply Hid'. apply list_elem_of_In, in_map_iff.
        exists (id', Some r). split; [reflexivity | apply list_elem_of_In, Hin]. }
      destruct (set_has id' (tokensToRecheck s)); [|exact Hrc].
      destruct o; simpl; [|exact Hrc]. apply elem_of_set_delete. split; assumption.
Qed.

End Items.

Lemma elem_of_map_pair {A : Type} (f : nat -> option A) (l : list nat) (id : nat) (r : A) :
  id ∈ l -> f id = Some r -> (id, Some r) ∈ map (fun x => (x, f x)) l.
Proof.
  intros Hin Hf. apply list_elem_of_In, in_map_iff. exists id.
  rewrite Hf. split; [reflexivity | apply list_elem_of_In, Hin].
Qed.

(** *** The chain results of a group *)

Lemma find_result_batch net pass chainName batch id :
  id ∈ batch ->
  find_result id (getTokenOwnerBatch net pass chainName batch)
  = Some {| tokenId := id; owner := net pass chainName id |}.
Proof.
  unfold find_result, getTokenOwnerBatch. induction batch as [|id' batch IH]; intros Hin; simpl.
  - apply elem_of_nil in Hin. contradiction.
  - destruct (Nat.eqb_spec id' id) as [->|Hne]; [reflexivity|].
    apply IH. apply elem_of_cons in Hin as [->|Hin]; [contradiction | exact Hin].
Qed.

Lemma first_found_chains chains net pass batch id :
  id ∈ batch ->
  first_found
    (map (fun '(chainName, cfg) =>
            if block_set (snapshotBlock cfg)
            then Some (chainName, Some (getTokenOwnerBatch net pass chainName batch))
            else None) chains) id
  = (fun '(n, _, a) => (n, a)) <$> first_reporting_chain net pass chains id.
Proof.
  intros Hin. induction chains as [|[n cfg] chains IH]; simpl; [reflexivity|].
  destruct (block_set (snapshotBlock cfg)); simpl; [|exact IH].
  rewrite find_result_batch by exact Hin. simpl.
  destruct (owner_found (net pass n id)); [reflexivity | exact IH].
Qed.

Lemma recheck_chain_results_succ chains net p batch :
  recheck_chain_results chains net (S p) batch =
  map (fun '(chainName, cfg) =>
         if block_set (snapshotBlock cfg)
         then Some (chainName, Some (getTokenOwnerBatch net (S p) chainName batch))
         else None) chains.
Proof.
  unfold recheck_chain_results. apply map_ext. intros [n cfg]. reflexivity.
Qed.

Lemma first_reporting_chain_in net pass chains id n cfg a :
  first_reporting_chain net pass chains id = Some (n, cfg, a) -> (n, cfg) ∈ chains.
Proof.
  induction chains as [|[n' cfg'] chains IH]; simpl; [discriminate|].
  destruct (if block_set (snapshotBlock cfg') then owner_found (net pass n' id) else None).
  - intros [= <- <- <-]. left.
  - intros H. right. apply IH, H.
Qed.

Lemma config_of_unique chains n cfg :
  NoDup (map fst chains) -> (n, cfg) ∈ chains -> config_of chains n = Some cfg.
Proof.
  induction chains as [|[n' cfg'] chains IH]; intros Hnd Hin; simpl in *.
  - apply elem_of_nil in Hin. contradiction.
  - apply NoDup_cons in Hnd as [Hn' Hnd].
    apply elem_of_cons in Hin as [[= -> ->]|Hin].
    + rewrite bool_decide_true by reflexivity. reflexivity.
    + rewrite bool_decide_false; [apply IH; assumption|].
      intros ->. apply Hn'. apply list_elem_of_In, in_map_iff.
      exists (n, cfg). split; [reflexivity | apply list_elem_of_In, Hin].
Qed.

Lemma chosen_record chains net pass batch id n cfg a :
  NoDup (map fst chains) -> id ∈ batch ->
  first_reporting_chain net pass chains id = Some (n, cfg, a) ->
  (fun '(n, a) => record_of chains n a)
    <$> first_found
          (map (fun '(chainName, cfg) =>
                  if block_set (snapshotBlock cfg)
                  then Some (chainName, Some (getTokenOwnerBatch net pass chainName batch))
                  else None) chains) id
  = Some {| p_owner := a; p_chain := n; p_block := snapshotBlock cfg |}.
Proof.
  intros Hnd Hin Hf. rewrite first_found_chains by exact Hin. rewrite Hf. simpl.
  unfold record_of. rewrite (config_of_unique chains n cfg Hnd) by
    (eapply first_reporting_chain_in; exact Hf).
  reflexivity.
Qed.

(** C5: within a group of the dispatcher (the initial sweep, or a recheck
    pass for an id still unresolved), the record written for [id] names the
    first chain in configuration order that has a snapshot block and reports
    a non-null, non-zero owner, with that owner and that chain's snapshot
    block, however many later chains also report an owner. *)
Theorem first_reporting_chain_recorded chains net pass batch s id n cfg a :
  NoDup (map fst chains) -> NoDup batch -> id ∈ batch ->
  first_reporting_chain net pass chains id = Some (n, cfg, a) ->
  (pass = 0 ->
   finalSnapshot (initial_group chains net batch s) !! id
   = Some {| p_owner := a; p_chain := n; p_block := snapshotBlock cfg |}) /\
  (0 < pass -> id ∈ tokensToRecheck s ->
   finalSnapshot (recheck_group chains net pass batch s) !! id
   = Some {| p_owner := a; p_chain := n; p_block := snapshotBlock cfg |}).
Proof.
  intros Hnd Hbatch Hin Hf. split.
  - intros ->. rewrite PandaFacts.panda_initial_group_items.
    apply initial_items_lookup; [rewrite map_fst_pairs; exact Hbatch|].
    apply elem_of_map_pair; [exact Hin|].
    apply (chosen_record chains net 0 batch id n cfg a Hnd Hin Hf).
  - intros Hp Hrc. destruct pass as [|p]; [lia|].
    rewrite PandaFacts.panda_recheck_group_items.
    apply recheck_items_lookup; [rewrite map_fst_pairs; exact Hbatch| |exact Hrc].
    apply elem_of_map_pair; [exact Hin|].
    rewrite recheck_chain_results_succ.
    apply (chosen_record chains net (S p) batch id n cfg a Hnd Hin Hf).
Qed.

Lemma first_reporting_chain_recorded_witness :
  finalSnapshot
    (initial_group
       [("ethereum", {| rpc := "eth"; chainId := 1; snapshotBlock := Some 10 |});
        ("bsc", {| rpc := "bsc"; chainId := 56; snapshotBlock := Some 20 |})]
       (fun _ _ _ => Some "0xAA") [3; 4]
       (empty [("ethereum", {| rpc := "eth"; chainId := 1; snapshotBlock := Some 10 |});
               ("bsc", {| rpc := "bsc"; chainId := 56; snapshotBlock := Some 20 |})]))
    !! 3
  = Some {| p_owner := "0xAA"; p_chain := "ethereum"; p_block := Some 10 |}.
Proof.
  apply (proj1 (first_reporting_chain_recorded
    [("ethereum", {| rpc := "eth"; chainId := 1; snapshotBlock := Some 10 |});
     ("bsc", {| rpc := "bsc"; chainId := 56; snapshotBlock := Some 20 |})]
    (fun _ _ _ => Some "0xAA") 0 [3; 4]
    (empty [("ethereum", {| rpc := "eth"; chainId := 1; snapshotBlock := Some 10 |});
            ("bsc", {| rpc := "bsc"; chainId := 56; snapshotBlock := Some 20 |})])
    3 "ethereum" {| rpc := "eth"; chainId := 1; snapshotBlock := Some 10 |} "0xAA"
    ltac:(apply (bool_decide_unpack _); vm_compute; exact I)
    ltac:(apply (bool_decide_unpack _); vm_compute; exact I)
    ltac:(apply (bool_decide_unpack _); vm_compute; exact I)
    ltac:(vm_compute; reflexivity))).
  reflexivity.
Defined.

End DispatcherClaims.

(* ------------------------------------------------------------------ *)
(** ** The Solana owner fetcher and its rate gate *)

Module FetcherFacts.
Import Fetcher.

Section Fetch.
Context (maxConcurrent : Z)
        (largest : nat -> string -> reply largestAccountsBody)
        (accountInfo : nat -> string -> reply accountInfoBody).

(** Every path through one attempt releases the slot exactly once, never
    throws out of the attempt, and makes one or two round trips. *)
Lemma attempt_body_gate (mintAddress : string) (attempt : nat) (g : gate) :
  exists c g',
    attempt_body largest accountInfo mintAddress attempt g = Done c g' /\
    activeRequests g' = (activeRequests g - 1)%Z /\
    acquired g' = acquired g /\
    released g' = S (released g) /\
    S (roundTrips g) <= roundTrips g' <= S (S (roundTrips g)).
Proof.
  destruct g as [a acq rel rt ev].
  unfold attempt_body, sleep, try_catch, bind, ret, throw, releaseSlot,
    post_largest, post_accountInfo; simpl.
  repeat (case_match; simplify_eq/=); eexists; eexists; (split; [reflexivity|]); simpl; lia.
Qed.

Lemma attempt_body_no_owner (mintAddress : string) (attempt : nat) (g g' : gate) (c : ctl) :
  (forall n t st info, accountInfo n t <> Resolved st (IParsed (Some info))) ->
  attempt_body largest accountInfo mintAddress attempt g = Done c g' -> c = Continue.
Proof.
  intros Hno. destruct g as [a acq rel rt ev].
  unfold attempt_body, sleep, try_catch, bind, ret, throw, releaseSlot,
    post_largest, post_accountInfo; simpl.
  intros H. repeat (case_match; simplify_eq/=); try reflexivity;
    exfalso; eapply Hno; eassumption.
Qed.

(** The retry loop, from a gate with a free slot: it returns, with the gate
    as it found it, after [t <= fuel] attempts, each holding one slot over
    one or two round trips. *)
Lemma attempts_from_gate (mintAddress : string) (fuel attempt : nat) (g : gate) :
  (activeRequests g < maxConcurrent)%Z ->
  exists v g',
    attempts_from maxConcurrent largest accountInfo mintAddress attempt fuel g = Done v g' /\
    activeRequests g' = activeRequests g /\
    exists t, acquired g' = acquired g + t /\ released g' = released g + t /\ t <= fuel /\
              roundTrips g + t <= roundTrips g' <= roundTrips g + 2 * t.
Proof.
  revert attempt g. induction fuel as [|f IH]; intros attempt g Hg.
  - exists None, g. split; [reflexivity|]. split; [reflexivity|].
    exists 0. lia.
  - cbn [attempts_from]. unfold bind at 1, waitForSlot.
    rewrite bool_decide_true by exact Hg.
    destruct (attempt_body_gate mintAddress attempt
                (mkGate (activeRequests g + 1) (S (acquired g)) (released g) (roundTrips g)
                (Acquire :: events g)))
      as (c & g2 & Hb & Ha & Hacq & Hrel & Hrt).
    simpl in Ha, Hacq, Hrel, Hrt. unfold bind. rewrite Hb.
    destruct c as [|o].
    + destruct (IH (S attempt) g2 ltac:(lia)) as (v & g3 & Hr & Ha3 & t & H1 & H2 & H3 & H4).
      exists v, g3. split; [exact Hr|]. split; [lia|].
      exists (S t). lia.
    + exists o, g2. split; [reflexivity|]. split; [lia|]. exists 1. lia.
Qed.

Lemma attempts_from_no_owner (mintAddress : string) (fuel attempt : nat) (g g' : gate)
    (v : option string) :
  (forall n t st info, accountInfo n t <> Resolved st (IParsed (Some info))) ->
  attempts_from maxConcurrent largest accountInfo mintAddress attempt fuel g = Done v g' ->
  v = None.
Proof.
  intros Hno. revert attempt g. induction fuel as [|f IH]; intros attempt g H.
  - cbn in H. injection H as <- _. reflexivity.
  - cbn [attempts_from] in H. unfold bind at 1 in H.
    destruct (waitForSlot maxConcurrent g) as [[] g1|e g1|g1]; [|discriminate|discriminate].
    unfold bind in H.
    destruct (attempt_body largest accountInfo mintAddress attempt g1) as [c g2|e g2|g2] eqn:Hb;
      [|discriminate|discriminate].
    rewrite (attempt_body_no_owner _ _ _ _ _ Hno Hb) in H. apply (IH _ _ H).
Qed.

Lemma attempts_from_full (mintAddress : string) (fuel attempt : nat) (g : gate) :
  (maxConcurrent <= activeRequests g)%Z ->
  attempts_from maxConcurrent largest accountInfo mintAddress attempt (S fuel) g = Spinning g.
Proof.
  intros Hg. cbn [attempts_from]. unfold bind at 1, waitForSlot.
  rewrite bool_decide_false by lia. reflexivity.
Qed.

(** One attempt, as it happens: it takes no slot, makes one or two round
    trips, then gives its slot back; an attempt that returns an owner makes
    two. *)
Lemma attempt_body_events (mintAddress : string) (attempt : nat) (g g' : gate) (c : ctl) :
  attempt_body largest accountInfo mintAddress attempt g = Done c g' ->
  exists k, (k = 1 \/ k = 2) /\
    events g' = Release :: repeat RoundTrip k ++ events g /\
    acquired g' = acquired g /\ released g' = S (released g) /\ roundTrips g' = roundTrips g + k /\
    (forall o, c = Return o -> k = 2).
Proof.
  destruct g as [a acq rel rt ev].
  unfold attempt_body, sleep, try_catch, bind, ret, throw, releaseSlot,
    post_largest, post_accountInfo; simpl.
  intros H. repeat (case_match; simplify_eq/=).
  all: first [ exists 1; split_and!; [left; reflexivity|reflexivity|reflexivity|reflexivity|lia|];
               intros ? ?; discriminate
             | exists 2; split_and!; [right; reflexivity|reflexivity|reflexivity|reflexivity|lia|];
               intros ? ?; reflexivity ].
Qed.

Lemma rev_attempt (ev : list event) (k : nat) (rest : list event) :
  k = 1 \/ k = 2 ->
  rev (Release :: repeat RoundTrip k ++ Acquire :: ev) ++ rest
  = rev ev ++ ExtraProps.attempt_events k ++ rest.
Proof.
  intros [-> | ->]; unfold ExtraProps.attempt_events; simpl; rewrite <- !app_assoc; reflexivity.
Qed.

(** The retry loop, as it happens: a sequence of at most [fuel] attempts,
    each one slot taken, one or two round trips, the slot given back. *)
Lemma attempts_from_events (mintAddress : string) (fuel attempt : nat) (g g' : gate)
    (v : option string) :
  attempts_from maxConcurrent largest accountInfo mintAddress attempt fuel g = Done v g' ->
  exists trips : list nat,
    length trips <= fuel /\ Forall (fun k => k = 1 \/ k = 2) trips /\
    rev (events g') = rev (events g) ++ concat (map ExtraProps.attempt_events trips) /\
    acquired g' = acquired g + length trips /\ released g' = released g + length trips /\
    roundTrips g' = roundTrips g + sum_list trips /\
    (forall o, v = Some o -> last trips = Some 2).
Proof.
  revert attempt g. induction fuel as [|f IH]; intros attempt g H.
  - cbn in H. injection H as <- <-. exists []. simpl. rewrite app_nil_r.
    split_and!; try reflexivity; try lia; [constructor|]. intros o; discriminate.
  - cbn [attempts_from] in H. unfold bind at 1, waitForSlot in H.
    destruct (bool_decide (activeRequests g < maxConcurrent)%Z); [|discriminate].
    unfold bind in H.
    destruct (attempt_body largest accountInfo mintAddress attempt
                (mkGate (activeRequests g + 1) (S (acquired g)) (released g) (roundTrips g)
                   (Acquire :: events g))) as [c gb|e gb|gb] eqn:Hb; [|discriminate|discriminate].
    apply attempt_body_events in Hb as (k & Hk & He & Ha & Hr & Hrt & Hret).
    simpl in He, Ha, Hr, Hrt.
    destruct c as [|o'].
    + destruct (IH _ _ H) as (trips & H1 & H2 & H3 & H4 & H5 & H6 & H7).
      exists (k :: trips). split_and!.
      * simpl. lia.
      * constructor; assumption.
      * rewrite H3, He. cbn [map concat]. apply rev_attempt, Hk.
      * simpl. lia.
      * simpl. lia.
      * simpl. lia.
      * intros o Ho. specialize (H7 o Ho). destruct trips as [|y l]; [discriminate|].
        exact H7.
    + injection H as -> <-. exists [k]. split_and!.
      * simpl. lia.
      * constructor; [exact Hk | constructor].
      * rewrite He. cbn [map concat]. pose proof (rev_attempt (events g) k [] Hk) as E.
        rewrite !app_nil_r in E. rewrite app_nil_r. exact E.
      * simpl. lia.
      * simpl. lia.
      * simpl. lia.
      * intros o Ho. simpl. f_equal. apply (Hret v). reflexivity.
Qed.

End Fetch.
(** *** [getNFTOwner] *)

Lemma getNFTOwner_gate maxConcurrent largest accountInfo mintAddress g v g' :
  getNFTOwner maxConcurrent largest accountInfo mintAddress g = Done v g' ->
  activeRequests g' = activeRequests g /\
  exists t, acquired g' = acquired g + t /\ released g' = released g + t /\ t <= maxRetries /\
            roundTrips g + t <= roundTrips g' <= roundTrips g + 2 * t.
Proof.
  unfold getNFTOwner. destruct mintAddress as [m|].
  2: { intros [= <- <-]. split; [reflexivity|]. exists 0. unfold maxRetries. lia. }
  destruct (bool_decide (m = "") || bool_decide (trim m = "")).
  { intros [= <- <-]. split; [reflexivity|]. exists 0. unfold maxRetries. lia. }
  destruct (Z_lt_le_dec (activeRequests g) maxConcurrent) as [Hg|Hg].
  - destruct (attempts_from_gate maxConcurrent largest accountInfo m maxRetries 0 g Hg)
      as (v' & g2 & Hr & Ha & t & H1 & H2 & H3 & H4).
    rewrite Hr. intros [= <- <-]. split; [exact Ha|]. exists t. lia.
  - unfold maxRetries. rewrite attempts_from_full by exact Hg. discriminate.
Qed.

(** C9: whenever [getNFTOwner] returns (an owner, or null after blank input,
    exhausted retries or caught errors), the gate's [activeRequests] is back
    at its value on entry, and it has released exactly as many slots as it
    acquired. *)
Theorem getNFTOwner_releases_every_slot maxConcurrent largest accountInfo mintAddress g v g' :
  getNFTOwner maxConcurrent largest accountInfo mintAddress g = Done v g' ->
  activeRequests g' = activeRequests g /\ acquired g' + released g = released g' + acquired g.
Proof.
  intros H. destruct (getNFTOwner_gate _ _ _ _ _ _ _ H) as (Ha & t & H1 & H2 & _).
  split; [exact Ha | lia].
Qed.

(** C8: from a gate with a free slot, [getNFTOwner] always returns a value
    (no error escapes it): [null] at once, leaving the gate as it was, for a
    missing or blank identifier, and [null] when no account lookup ever
    yields an owner, so that every attempt ends without one. *)
Theorem getNFTOwner_returns maxConcurrent largest accountInfo mintAddress g :
  (activeRequests g < maxConcurrent)%Z ->
  exists v g',
    getNFTOwner maxConcurrent largest accountInfo mintAddress g = Done v g' /\
    ((match mintAddress with None => True | Some m => trim m = "" end) -> v = None /\ g' = g) /\
    ((forall n t st info, accountInfo n t <> Resolved st (IParsed (Some info))) -> v = None).
Proof.
  intros Hg. unfold getNFTOwner. destruct mintAddress as [m|].
  2: { exists None, g. split; [reflexivity|]. split; [intros _; split; reflexivity|].
       intros _. reflexivity. }
  destruct (bool_decide (m = "") || bool_decide (trim m = "")) eqn:Eb.
  - exists None, g. split; [reflexivity|]. split; [intros _; split; reflexivity|].
    intros _. reflexivity.
  - destruct (attempts_from_gate maxConcurrent largest accountInfo m maxRetries 0 g Hg)
      as (v & g2 & Hr & _).
    exists v, g2. split; [exact Hr|]. split.
    + intros Ht. exfalso. rewrite Ht in Eb.
      rewrite orb_false_iff in Eb. destruct Eb as [_ Eb].
      rewrite bool_decide_eq_false in Eb. apply Eb. reflexivity.
    + intros Hno. apply (attempts_from_no_owner _ _ _ _ _ _ _ _ _ Hno Hr).
Qed.

Lemma getNFTOwner_returns_witness :
  (exists v g',
     getNFTOwner 30 (fun _ _ => Rejected (Some 500%Z)) (fun _ _ => Rejected None)
       (Some "mint") (mkGate 0 0 0 0 []) = Done v g' /\ v = None) /\
  getNFTOwner 30 (fun _ _ => Resolved 200 (LAccounts [("acct", 1%Z)]))
    (fun _ _ => Resolved 200 (IParsed (Some (Some "OWNER"))))
    (Some Examples.ex_nbsp) (mkGate 0 0 0 0 []) = Done None (mkGate 0 0 0 0 []).
Proof.
  split.
  - destruct (getNFTOwner_returns 30 (fun _ _ => Rejected (Some 500%Z)) (fun _ _ => Rejected None)
                (Some "mint") (mkGate 0 0 0 0 []) ltac:(simpl; lia)) as (v & g' & H & _ & Hno).
    exists v, g'. split; [exact H|]. apply Hno. intros n t st info. discriminate.
  - destruct (getNFTOwner_returns 30 (fun _ _ => Resolved 200 (LAccounts [("acct", 1%Z)]))
                (fun _ _ => Resolved 200 (IParsed (Some (Some "OWNER"))))
                (Some Examples.ex_nbsp) (mkGate 0 0 0 0 []) ltac:(simpl; lia))
      as (v & g' & H & Hb & _).
    rewrite H. destruct (Hb ltac:(vm_compute; reflexivity)) as [-> ->]. reflexivity.
Defined.

Lemma getNFTOwner_releases_every_slot_witness :
  activeRequests (mkGate 0 1 1 2 [Release; RoundTrip; RoundTrip; Acquire]) = activeRequests (mkGate 0 0 0 0 []) /\
  acquired (mkGate 0 1 1 2 [Release; RoundTrip; RoundTrip; Acquire]) + released (mkGate 0 0 0 0 [])
  = released (mkGate 0 1 1 2 [Release; RoundTrip; RoundTrip; Acquire]) + acquired (mkGate 0 0 0 0 []).
Proof.
  apply (getNFTOwner_releases_every_slot 30
           (fun _ _ => Resolved 200 (LAccounts [("acct", 1%Z)]))
           (fun _ _ => Resolved 200 (IParsed (Some (Some "OWNER"))))
           (Some "mint") (mkGate 0 0 0 0 []) (Some "OWNER") (mkGate 0 1 1 2 [Release; RoundTrip; RoundTrip; Acquire])).
  vm_compute. reflexivity.
Defined.

(** C6 as stated (a slot per round trip, two per successful attempt) does
    not hold: a first attempt that finds the owner acquires a single slot
    and holds it over both round trips. *)
Lemma getNFTOwner_one_slot_two_round_trips :
  getNFTOwner 30
    (fun _ _ => Resolved 200 (LAccounts [("acct", 1%Z)]))
    (fun _ _ => Resolved 200 (IParsed (Some (Some "OWNER"))))
    (Some "mint") (mkGate 0 0 0 0 [])
  = Done (Some "OWNER") (mkGate 0 1 1 2 [Release; RoundTrip; RoundTrip; Acquire]).
Proof. vm_compute. reflexivity. Qed.

(** C6 (amended): everything [getNFTOwner] does to the gate and the network
    is a sequence of at most [maxRetries] attempts; each attempt takes one
    slot, makes one or two round trips (the largest-account lookup and, when
    it finds an account, the account-owner lookup) while holding it, then
    gives it back; when an owner is returned, the last attempt made both
    round trips under its one slot. *)
Theorem getNFTOwner_one_slot_per_attempt maxConcurrent largest accountInfo mintAddress g v g' :
  getNFTOwner maxConcurrent largest accountInfo mintAddress g = Done v g' ->
  exists trips : list nat,
    length trips <= maxRetries /\ Forall (fun k => k = 1 \/ k = 2) trips /\
    rev (events g') = rev (events g) ++ concat (map ExtraProps.attempt_events trips) /\
    acquired g' = acquired g + length trips /\ released g' = released g + length trips /\
    roundTrips g' = roundTrips g + sum_list trips /\
    (forall o, v = Some o -> last trips = Some 2).
Proof.
  unfold getNFTOwner. destruct mintAddress as [m|].
  2: { intros [= <- <-]. exists []. simpl. rewrite app_nil_r.
       split_and!; try reflexivity; try lia; [constructor|]. intros o; discriminate. }
  destruct (bool_decide (m = "") || bool_decide (trim m = "")).
  { intros [= <- <-]. exists []. simpl. rewrite app_nil_r.
    split_and!; try reflexivity; try lia; [constructor|]. intros o; discriminate. }
  apply attempts_from_events.
Qed.

Lemma getNFTOwner_one_slot_per_attempt_witness :
  exists trips : list nat,
    [Acquire; RoundTrip; RoundTrip; Release] = concat (map ExtraProps.attempt_events trips) /\
    last trips = Some 2.
Proof.
  destruct (getNFTOwner_one_slot_per_attempt 30
              (fun _ _ => Resolved 200 (LAccounts [("acct", 1%Z)]))
              (fun _ _ => Resolved 200 (IParsed (Some (Some "OWNER"))))
              (Some "mint") (mkGate 0 0 0 0 []) (Some "OWNER")
              (mkGate 0 1 1 2 [Release; RoundTrip; RoundTrip; Acquire]) ltac:(vm_compute; reflexivity))
    as (trips & _ & _ & He & _ & _ & _ & Hl).
  exists trips. split; [exact He | exact (Hl "OWNER" eq_refl)].
Defined.

End FetcherFacts.

(* ------------------------------------------------------------------ *)
(** ** The written output and unresolved items *)

Module OutputClaims.
Import Engine Props EngineFacts.

Lemma infinity_sort_rows_elem (rows : list Infinity.csvRow) (x : Infinity.csvRow) :
  x ∈ Infinity.sort_rows rows <-> x ∈ rows.
Proof.
  assert (Hins : forall r l, x ∈ Infinity.insert_row r l <-> x = r \/ x ∈ l).
  { intros r l. induction l as [|r' l IH]; simpl.
    - rewrite list_elem_of_singleton, elem_of_nil. tauto.
    - destruct (Infinity.TokenId r' <=? Infinity.TokenId r); rewrite !elem_of_cons; [rewrite IH|];
        tauto. }
  unfold Infinity.sort_rows. induction rows as [|r rows IH]; simpl; [reflexivity|].
  rewrite Hins, IH, elem_of_cons. reflexivity.
Qed.

Lemma panda_sort_rows_elem (rows : list Panda.csvRow) (x : Panda.csvRow) :
  x ∈ Panda.sort_rows rows <-> x ∈ rows.
Proof.
  assert (Hins : forall r l, x ∈ Panda.insert_row r l <-> x = r \/ x ∈ l).
  { intros r l. induction l as [|r' l IH]; simpl.
    - rewrite list_elem_of_singleton, elem_of_nil. tauto.
    - destruct (Panda.TokenId r' <=? Panda.TokenId r); rewrite !elem_of_cons; [rewrite IH|];
        tauto. }
  unfold Panda.sort_rows. induction rows as [|r rows IH]; simpl; [reflexivity|].
  rewrite Hins, IH, elem_of_cons. reflexivity.
Qed.

Lemma infinity_csv_rows (s : Infinity.istate) (row : Infinity.csvRow) :
  row ∈ Infinity.csvData s ->
  exists r, finalSnapshot s !! Infinity.TokenId row = Some r.
Proof.
  unfold Infinity.csvData. rewrite infinity_sort_rows_elem.
  intros Hin. apply list_elem_of_In, in_map_iff in Hin as [[k r] [<- Hkr]].
  exists r. simpl. apply elem_of_map_to_list, list_elem_of_In, Hkr.
Qed.

Lemma panda_csv_rows (s : Panda.pstate) (row : Panda.csvRow) :
  row ∈ Panda.csvData s ->
  exists r, finalSnapshot s !! Panda.TokenId row = Some r.
Proof.
  unfold Panda.csvData. rewrite panda_sort_rows_elem.
  intros Hin. apply list_elem_of_In, in_map_iff in Hin as [[k r] [<- Hkr]].
  exists r. simpl. apply elem_of_map_to_list, list_elem_of_In, Hkr.
Qed.

(** *** The Solana batches *)

Lemma batch_loop_all (B : nat) (fetched : string -> option string) (fuel startIdx : nat)
    (rows : list Solana.csvRow) :
  0 < B -> length rows - startIdx <= fuel * B ->
  Solana.batch_loop B fetched fuel startIdx rows
  = imap (fun k row => if bool_decide (startIdx <= k) then Solana.set_owner fetched row else row)
         rows.
Proof.
  intros HB. revert startIdx rows.
  induction fuel as [|f IH]; intros startIdx rows Hf; simpl.
  - apply list_eq. intros i. rewrite list_lookup_imap.
    destruct (rows !! i) as [row|] eqn:E; simpl; [|reflexivity].
    apply lookup_lt_Some in E. rewrite bool_decide_false by lia. reflexivity.
  - destruct (startIdx <? length rows) eqn:Es.
    + apply Nat.ltb_lt in Es. rewrite IH.
      2: { unfold Solana.fetch_range. rewrite length_imap. lia. }
      apply list_eq. intros i. unfold Solana.fetch_range. rewrite !list_lookup_imap.
      destruct (rows !! i) as [row|] eqn:E; simpl; [|reflexivity].
      apply lookup_lt_Some in E. f_equal.
      destruct (decide (startIdx + B <= i)).
      * rewrite (bool_decide_true (startIdx + B <= i)) by lia.
        rewrite (bool_decide_false (startIdx <= i < _)) by lia.
        rewrite bool_decide_true by lia. reflexivity.
      * rewrite (bool_decide_false (startIdx + B <= i)) by lia.
        destruct (decide (startIdx <= i)).
        -- rewrite !bool_decide_true by lia. reflexivity.
        -- rewrite !bool_decide_false by lia. reflexivity.
    + apply Nat.ltb_ge in Es.
      apply list_eq. intros i. rewrite list_lookup_imap.
      destruct (rows !! i) as [row|] eqn:E; simpl; [|reflexivity].
      apply lookup_lt_Some in E. rewrite bool_decide_false by lia. reflexivity.
Qed.

Lemma imap_index_free {A B : Type} (f : A -> B) (l : list A) (g : nat -> A -> B) :
  (forall k x, g k x = f x) -> imap g l = map f l.
Proof.
  revert g. induction l as [|x l IH]; intros g Hg; simpl; [reflexivity|].
  rewrite Hg. f_equal. apply IH. intros k y. apply Hg.
Qed.

Lemma processEarningsCSV_written (B : nat) (fetched : string -> option string)
    (data written : list Solana.csvRow) :
  0 < B -> Solana.processEarningsCSV B fetched data = Solana.Saved written ->
  written = map (fun row => Solana.with_owner row
                              (match Solana.SolanaTokenId row with
                               | Some m => fetched m
                               | None => None
                               end))
                (filter Solana.valid_row data).
Proof.
  intros HB. unfold Solana.processEarningsCSV.
  destruct data as [|firstRow rest]; [discriminate|].
  destruct (Solana.SolanaTokenId firstRow) as [m0|]; [|discriminate].
  intros [= <-]. unfold Solana.saveCSV.
  rewrite batch_loop_all by (try rewrite length_map; nia).
  rewrite (imap_index_free (Solana.set_owner fetched) _
             (fun k row => if bool_decide (0 <= k) then Solana.set_owner fetched row else row))
    by (intros k x; rewrite bool_decide_true by lia; reflexivity).
  rewrite map_map. apply map_ext_in. intros row Hin.
  apply list_elem_of_In, list_elem_of_filter in Hin as [Hv _].
  unfold Solana.valid_row in Hv. unfold Solana.set_owner, Solana.with_owner. simpl.
  destruct (Solana.SolanaTokenId row) as [m|]; [|contradiction].
  apply Is_true_true_1, andb_true_iff in Hv as [Hm _].
  rewrite negb_true_iff, bool_decide_eq_false in Hm.
  rewrite bool_decide_false by exact Hm. reflexivity.
Qed.

(** C7 as stated does not hold for the Solana snapshot: a row whose owner is
    never found is written to the output, with a null [OwnerWallet]. *)
Lemma solana_unresolved_row_written :
  Solana.processEarningsCSV 2 (fun _ => None)
    [{| Solana.SolanaTokenId := Some "mint1"; Solana.otherColumns := [("Earnings", "12.5")];
        Solana.OwnerWallet := None |}]
  = Solana.Saved
      [{| Solana.SolanaTokenId := Some "mint1"; Solana.otherColumns := [("Earnings", "12.5")];
          Solana.OwnerWallet := None |}].
Proof. vm_compute. reflexivity. Qed.

(** C7 (amended): the EVM snapshotters write no row for an id left
    unresolved after all passes (the output holds only recorded ids), while
    the Solana snapshot writes every row with a valid identifier, its
    [OwnerWallet] being the owner found or null when none was found. *)
Theorem unresolved_items_in_output (net_inf : nat -> nat -> option string) (sb : nat)
    (chains : list (string * Panda.chainConfig)) (net : nat -> string -> nat -> option string)
    (B N : nat) (fetched : string -> option string) (data written : list Solana.csvRow) :
  0 < B -> Solana.processEarningsCSV B fetched data = Solana.Saved written ->
  (forall id, id ∈ Infinity.missingTokens (Infinity.snapshotNFTs net_inf sb B) ->
     forall row, row ∈ Infinity.csvData (Infinity.snapshotNFTs net_inf sb B) ->
     Infinity.TokenId row <> id) /\
  (forall id, id ∈ tokensToRecheck (Panda.snapshotNFTs chains net B N) ->
     forall row, row ∈ Panda.csvData (Panda.snapshotNFTs chains net B N) ->
     Panda.TokenId row <> id) /\
  written = map (fun row => Solana.with_owner row
                              (match Solana.SolanaTokenId row with
                               | Some m => fetched m
                               | None => None
                               end))
                (filter Solana.valid_row data).
Proof.
  intros HB Hsaved. split; [|split].
  - intros id Hid row Hrow <-.
    destruct (infinity_csv_rows _ _ Hrow) as [r Hr].
    destruct (InfinityFacts.infinity_run_inv net_inf sb B) as [HI _].
    rewrite (inv_unrecorded _ _ _ _ HI _ Hid) in Hr. discriminate.
  - intros id Hid row Hrow <-.
    destruct (panda_csv_rows _ _ Hrow) as [r Hr].
    destruct (PandaFacts.panda_run_inv chains net B N) as [HI _].
    rewrite (inv_unrecorded _ _ _ _ HI _ Hid) in Hr. discriminate.
  - apply (processEarningsCSV_written B fetched data written HB Hsaved).
Qed.

Lemma unresolved_items_in_output_witness :
  [{| Solana.SolanaTokenId := Some "mint1"; Solana.otherColumns := [("Earnings", "12.5")];
      Solana.OwnerWallet := None |}]
  = map (fun row => Solana.with_owner row
                      (match Solana.SolanaTokenId row with
                       | Some m => (fun _ : string => @None string) m
                       | None => None
                       end))
        (filter Solana.valid_row
           [{| Solana.SolanaTokenId := Some "mint1"; Solana.otherColumns := [("Earnings", "12.5")];
               Solana.OwnerWallet := None |};
            {| Solana.SolanaTokenId := Some Examples.ex_nbsp; Solana.otherColumns := [("Earnings", "3")];
               Solana.OwnerWallet := None |}]).
Proof.
  apply (unresolved_items_in_output (fun _ _ => None) 100 [] (fun _ _ _ => None) 2 10
           (fun _ => None)
           [{| Solana.SolanaTokenId := Some "mint1"; Solana.otherColumns := [("Earnings", "12.5")];
               Solana.OwnerWallet := None |};
            {| Solana.SolanaTokenId := Some Examples.ex_nbsp; Solana.otherColumns := [("Earnings", "3")];
               Solana.OwnerWallet := None |}]
           [{| Solana.SolanaTokenId := Some "mint1"; Solana.otherColumns := [("Earnings", "12.5")];
               Solana.OwnerWallet := None |}]
           ltac:(lia) ltac:(vm_compute; reflexivity)).
Defined.

End OutputClaims.

(* ------------------------------------------------------------------ *)
(** ** The wallet summary *)

Module WalletClaims.
Import Panda.

Lemma wallet_fold (records : list pandaRecord) (wc : gmap string nat) :
  total_count
    (foldl (fun walletCounts r =>
              <[p_owner r := default 0 (walletCounts !! p_owner r) + 1]> walletCounts)
           wc records) = total_count wc + length records /\
  size (foldl (fun walletCounts r =>
                 <[p_owner r := default 0 (walletCounts !! p_owner r) + 1]> walletCounts)
              wc records) <= size wc + length records.
Proof.
  revert wc. induction records as [|r records IH]; intros wc; simpl; [lia|].
  destruct (IH (<[p_owner r := default 0 (wc !! p_owner r) + 1]> wc)) as [H1 H2].
  split.
  - rewrite H1, Nat.add_1_r, PandaFacts.total_count_bump. lia.
  - assert (Hs : size (<[p_owner r := default 0 (wc !! p_owner r) + 1]> wc) <= S (size wc))
      by (rewrite map_size_insert; destruct (wc !! p_owner r); cbv [id]; lia).
    lia.
Qed.

(** C10: for every map of found tokens, the per-wallet counts of
    [generateWalletSummary] add up to the number of tokens, and there are no
    more wallets than tokens. *)
Theorem wallet_counts_sum_to_found (foundTokens : gmap nat pandaRecord) :
  total_count (generateWalletSummary foundTokens) = size foundTokens /\
  uniqueWallets (generateWalletSummary foundTokens) <= size foundTokens.
Proof.
  unfold generateWalletSummary, uniqueWallets.
  destruct (wallet_fold (map snd (map_to_list foundTokens)) ∅) as [H1 H2].
  rewrite length_map, length_map_to_list in H1, H2.
  rewrite map_size_empty in H2.
  unfold total_count at 2 in H1. rewrite map_to_list_empty in H1. simpl in H1.
  split; lia.
Qed.

End WalletClaims.

(* ------------------------------------------------------------------ *)
(** ** Further properties of the code *)

Module TrimFacts.
Import Fetcher.

Lemma drop_spaces_nil (l : list Z) :
  drop_spaces l = [] <-> Forall (fun c => is_js_space c = true) l.
Proof.
  induction l as [|c l IH]; simpl; [split; auto|].
  rewrite Forall_cons. destruct (is_js_space c) eqn:E.
  - rewrite IH. tauto.
  - split; [discriminate | intros [? _]; discriminate].
Qed.

Lemma Forall_drop_spaces (l : list Z) :
  Forall (fun c => is_js_space c = true) (drop_spaces l) <->
  Forall (fun c => is_js_space c = true) l.
Proof.
  induction l as [|c l IH]; simpl; [reflexivity|].
  destruct (is_js_space c) eqn:E; rewrite ?Forall_cons, ?IH; tauto.
Qed.

Lemma encode_utf8_nil (cps : list Z) : encode_utf8 cps = "" <-> cps = [].
Proof.
  destruct cps as [|cp cps]; [split; reflexivity|].
  split; [|discriminate]. unfold encode_utf8. cbn [map concat].
  assert (Hne : encode_cp cp <> []) by (unfold encode_cp; repeat case_match; discriminate).
  destruct (encode_cp cp); [contradiction|]. discriminate.
Qed.

Lemma trim_empty (s : string) :
  trim s = "" <-> Forall (fun c => is_js_space c = true) (decode_utf8 s).
Proof.
  unfold trim. rewrite encode_utf8_nil, <- Forall_drop_spaces.
  assert (Hr : forall l : list Z,
            Forall (fun c => is_js_space c = true) (rev l) <-> Forall (fun c => is_js_space c = true) l).
  { intros l. rewrite !Forall_forall.
    split; intros H x Hx; apply H; rewrite list_elem_of_In in *;
      [apply (in_rev l) | apply (in_rev l)]; assumption. }
  rewrite <- Hr, <- drop_spaces_nil.
  split.
  - intros H. destruct (drop_spaces (rev (drop_spaces (decode_utf8 s)))) as [|c l];
      [reflexivity|]. simpl in H. destruct (rev l); discriminate.
  - intros ->. reflexivity.
Qed.

Lemma not_Forall_true {A : Type} (f : A -> bool) (l : list A) :
  ~ Forall (fun c => f c = true) l <-> exists c, c ∈ l /\ f c = false.
Proof.
  induction l as [|c l IH].
  - split; [intros H; exfalso; apply H; constructor|]. intros (c & Hc & _).
    apply elem_of_nil in Hc. contradiction.
  - rewrite Forall_cons. split.
    + intros H. destruct (f c) eqn:E.
      * assert (Hn : ~ Forall (fun c => f c = true) l) by tauto.
        apply IH in Hn as (c' & Hc' & Hf). exists c'. split; [apply elem_of_cons; right; exact Hc'|exact Hf].
      * exists c. split; [apply elem_of_cons; left; reflexivity | exact E].
    + intros (c' & Hc' & Hf) [Hc Hl]. apply elem_of_cons in Hc' as [->|Hc'].
      * congruence.
      * apply (proj2 IH); [exists c'; split; assumption | exact Hl].
Qed.

(** A token identifier passes [row.SolanaTokenId && row.SolanaTokenId.trim() !== '']
    exactly when it is present and its decoded text holds a code point that
    is not JS whitespace (U+00A0, U+FEFF, U+3000 and the like count as
    whitespace, as for [String.prototype.trim]). *)
Theorem valid_row_iff_non_blank (row : Solana.csvRow) :
  Solana.valid_row row = true <->
  exists m, Solana.SolanaTokenId row = Some m /\
            exists c, c ∈ decode_utf8 m /\ is_js_space c = false.
Proof.
  unfold Solana.valid_row. destruct (Solana.SolanaTokenId row) as [m|].
  - rewrite andb_true_iff, !negb_true_iff, !bool_decide_eq_false.
    split.
    + intros [_ Ht]. exists m. split; [reflexivity|].
      apply not_Forall_true. rewrite <- trim_empty. exact Ht.
    + intros (m' & [= <-] & Hc). apply not_Forall_true in Hc. rewrite <- trim_empty in Hc.
      split; [|exact Hc]. intros ->. apply Hc. reflexivity.
  - split; [discriminate|]. intros (m & Hm & _). discriminate.
Qed.


Lemma non_blank_iff (m : string) :
  negb (bool_decide (m = "")) && negb (bool_decide (trim m = "")) = true <->
  exists c, c ∈ decode_utf8 m /\ is_js_space c = false.
Proof.
  rewrite andb_true_iff, !negb_true_iff, !bool_decide_eq_false.
  split.
  - intros [_ Ht]. apply not_Forall_true. rewrite <- trim_empty. exact Ht.
  - intros Hc. apply not_Forall_true in Hc. rewrite <- trim_empty in Hc.
    split; [|exact Hc]. intros ->. apply Hc. reflexivity.
Qed.

End TrimFacts.

Module FetcherMore.
Import Fetcher.

Section Fetch.
Context (maxConcurrent : Z)
        (largest : nat -> string -> reply largestAccountsBody)
        (accountInfo : nat -> string -> reply accountInfoBody).


Lemma attempts_from_no_owner_count (mintAddress : string) (fuel attempt : nat) (g g' : gate)
    (v : option string) :
  (forall n t st info, accountInfo n t <> Resolved st (IParsed (Some info))) ->
  (activeRequests g < maxConcurrent)%Z ->
  attempts_from maxConcurrent largest accountInfo mintAddress attempt fuel g = Done v g' ->
  acquired g' = acquired g + fuel /\ released g' = released g + fuel.
Proof.
  intros Hno. revert attempt g. induction fuel as [|f IH]; intros attempt g Hg H.
  - cbn in H. injection H as <- <-. lia.
  - cbn [attempts_from] in H. unfold bind at 1, waitForSlot in H.
    rewrite bool_decide_true in H by exact Hg.
    destruct (FetcherFacts.attempt_body_gate largest accountInfo mintAddress attempt
              (mkGate (activeRequests g + 1) (S (acquired g)) (released g) (roundTrips g)
                (Acquire :: events g)))
      as (c & g2 & Hb & Ha & Hacq & Hrel & Hrt).
    simpl in Ha, Hacq, Hrel, Hrt. unfold bind in H. rewrite Hb in H.
    rewrite (FetcherFacts.attempt_body_no_owner _ _ _ _ _ _ _ Hno Hb) in H.
    destruct (IH (S attempt) g2 ltac:(lia) H) as [H1 H2]. lia.
Qed.

Lemma attempt_body_return (mintAddress : string) (attempt : nat) (g g' : gate) (o : option string) :
  attempt_body largest accountInfo mintAddress attempt g = Done (Return o) g' ->
  exists st accounts tokenAccount amount rest st2,
    largest (roundTrips g) mintAddress = Resolved st (LAccounts accounts) /\ st <> 429%Z /\
    filter (fun acc => (0 < acc.2)%Z) accounts = (tokenAccount, amount) :: rest /\
    accountInfo (S (roundTrips g)) tokenAccount = Resolved st2 (IParsed (Some o)) /\
    st2 <> 429%Z.
Proof.
  destruct g as [a acq rel rt ev].
  unfold attempt_body, sleep, try_catch, bind, ret, throw, releaseSlot,
    post_largest, post_accountInfo; simpl.
  intros H. repeat (case_match; simplify_eq/=).
  all: do 6 eexists; split_and!; try eassumption;
    intros ->; rewrite bool_decide_true in * by reflexivity; discriminate.
Qed.

Lemma attempts_from_return (mintAddress : string) (fuel attempt : nat) (g g' : gate) (o : string) :
  attempts_from maxConcurrent largest accountInfo mintAddress attempt fuel g = Done (Some o) g' ->
  exists k st accounts tokenAccount amount rest st2,
    largest k mintAddress = Resolved st (LAccounts accounts) /\ st <> 429%Z /\
    filter (fun acc => (0 < acc.2)%Z) accounts = (tokenAccount, amount) :: rest /\
    accountInfo (S k) tokenAccount = Resolved st2 (IParsed (Some (Some o))) /\
    st2 <> 429%Z.
Proof.
  revert attempt g. induction fuel as [|f IH]; intros attempt g H.
  - discriminate.
  - cbn [attempts_from] in H. unfold bind at 1 in H.
    destruct (waitForSlot maxConcurrent g) as [[] g1|e g1|g1]; [|discriminate|discriminate].
    unfold bind in H.
    destruct (attempt_body largest accountInfo mintAddress attempt g1) as [c g2|e g2|g2] eqn:Hb;
      [|discriminate|discriminate].
    destruct c as [|o'].
    + exact (IH _ _ H).
    + injection H as -> _. apply attempt_body_return in Hb.
      exists (roundTrips g1). exact Hb.
Qed.

End Fetch.
End FetcherMore.

Module FetcherExtra.
Import Fetcher.



(** An owner returned by [getNFTOwner] is the [parsed.info.owner] of the
    account-info answer for the first token account with a positive amount
    in a largest-accounts answer for that very identifier, both answers
    being non-429. *)
Theorem getNFTOwner_owner_from_indexer maxConcurrent largest accountInfo mintAddress g g' o :
  getNFTOwner maxConcurrent largest accountInfo mintAddress g = Done (Some o) g' ->
  exists m, mintAddress = Some m /\
  exists k st accounts tokenAccount amount rest st2,
    largest k m = Resolved st (LAccounts accounts) /\ st <> 429%Z /\
    filter (fun acc => (0 < acc.2)%Z) accounts = (tokenAccount, amount) :: rest /\
    accountInfo (S k) tokenAccount = Resolved st2 (IParsed (Some (Some o))) /\
    st2 <> 429%Z.
Proof.
  unfold getNFTOwner. destruct mintAddress as [m|]; [|discriminate].
  destruct (bool_decide (m = "") || bool_decide (trim m = "")); [discriminate|].
  intros H. exists m. split; [reflexivity|].
  exact (FetcherMore.attempts_from_return _ _ _ _ _ _ _ _ _ H).
Qed.

Lemma getNFTOwner_owner_from_indexer_witness :
  exists m, Some "mint" = Some m /\
  exists k st accounts tokenAccount amount rest st2,
    (fun (_ : nat) (_ : string) => Resolved 200%Z (LAccounts [("acct", 1%Z)])) k m
      = Resolved st (LAccounts accounts) /\ st <> 429%Z /\
    filter (fun acc => (0 < acc.2)%Z) accounts = (tokenAccount, amount) :: rest /\
    (fun (_ : nat) (_ : string) => Resolved 200%Z (IParsed (Some (Some "OWNER")))) (S k) tokenAccount
      = Resolved st2 (IParsed (Some (Some "OWNER"))) /\
    st2 <> 429%Z.
Proof.
  apply (getNFTOwner_owner_from_indexer 30
           (fun _ _ => Resolved 200 (LAccounts [("acct", 1%Z)]))
           (fun _ _ => Resolved 200 (IParsed (Some (Some "OWNER"))))
           (Some "mint") (mkGate 0 0 0 0 []) (mkGate 0 1 1 2 [Release; RoundTrip; RoundTrip; Acquire]) "OWNER").
  vm_compute. reflexivity.
Defined.

(** When no account lookup ever yields an owner, [getNFTOwner] on a
    non-blank identifier, from a gate with a free slot, makes all
    [maxRetries] attempts, each taking and releasing one slot, and returns
    null. *)
Theorem getNFTOwner_no_owner_all_retries maxConcurrent largest accountInfo m g v g' :
  (activeRequests g < maxConcurrent)%Z ->
  (forall n t st info, accountInfo n t <> Resolved st (IParsed (Some info))) ->
  (exists c, c ∈ decode_utf8 m /\ is_js_space c = false) ->
  getNFTOwner maxConcurrent largest accountInfo (Some m) g = Done v g' ->
  v = None /\ acquired g' = acquired g + maxRetries /\ released g' = released g + maxRetries.
Proof.
  intros Hg Hno Hc. unfold getNFTOwner.
  apply TrimFacts.non_blank_iff in Hc. rewrite <- negb_orb in Hc.
  destruct (bool_decide (m = "") || bool_decide (trim m = "")); [discriminate|].
  intros H. split; [exact (FetcherFacts.attempts_from_no_owner _ _ _ _ _ _ _ _ _ Hno H)|].
  exact (FetcherMore.attempts_from_no_owner_count _ _ _ _ _ _ _ _ _ Hno Hg H).
Qed.

Lemma getNFTOwner_no_owner_all_retries_witness :
  None = @None string /\ acquired (mkGate 0 5 5 5 (concat (repeat [Release; RoundTrip; Acquire] 5))) = acquired (mkGate 0 0 0 0 []) + maxRetries /\
  released (mkGate 0 5 5 5 (concat (repeat [Release; RoundTrip; Acquire] 5))) = released (mkGate 0 0 0 0 []) + maxRetries.
Proof.
  apply (getNFTOwner_no_owner_all_retries 30
           (fun _ _ => Rejected (Some 500%Z)) (fun _ _ => Rejected None)
           "mint" (mkGate 0 0 0 0 []) None (mkGate 0 5 5 5 (concat (repeat [Release; RoundTrip; Acquire] 5)))).
  - simpl. lia.
  - intros n t st info. discriminate.
  - exists 109%Z. split; [vm_compute; apply elem_of_cons; left; reflexivity | reflexivity].
  - vm_compute. reflexivity.
Defined.

End FetcherExtra.

Module UltraFastFacts.
Import ExtraProps Examples.
Import Fetcher Solana UltraFast.

Lemma map_fmap {A B : Type} (f : A -> B) (l : list A) : map f l = f <$> l.
Proof. induction l as [|x l IH]; simpl; [reflexivity|]. rewrite IH. reflexivity. Qed.

Lemma find_map_fst {B C : Type} (g : B -> C) (m : string) (l : list (string * B)) :
  List.find (fun r => bool_decide (r.1 = m)) (map (fun ta => (ta.1, g ta.2)) l) =
  option_map (fun ta => (ta.1, g ta.2)) (List.find (fun r => bool_decide (r.1 = m)) l).
Proof.
  induction l as [|[a b] l IH]; simpl; [reflexivity|].
  case_bool_decide; [reflexivity | exact IH].
Qed.

Lemma omap_some {A : Type} (l : list A) : omap (fun x => x) (map Some l) = l.
Proof.
  induction l as [|x l IH]; [reflexivity|].
  transitivity (x :: omap (fun x => x) (map Some l)); [reflexivity|]. rewrite IH. reflexivity.
Qed.

Section Batch.
Context (largest : string -> reply largestAccountsBody)
        (multipleAccounts : list string -> reply multipleBody).

Lemma mintAddresses_elem (batch : list csvRow) (m : string) :
  m ∈ mintAddresses batch <->
  exists row, row ∈ batch /\ valid_row row = true /\ SolanaTokenId row = Some m.
Proof.
  unfold mintAddresses. rewrite list_elem_of_omap. split.
  - intros (row & Hr & Hm). destruct (valid_row row) eqn:E; [|discriminate].
    exists row. split_and!; assumption.
  - intros (row & Hr & Hv & Hm). exists row. rewrite Hv. split; assumption.
Qed.

Lemma validTokenAccounts_elem (batch : list csvRow) (mint t : string) :
  (mint, t) ∈ validTokenAccounts largest batch <->
  mint ∈ mintAddresses batch /\ tokenAccount_of largest mint = Some t.
Proof.
  unfold validTokenAccounts. rewrite list_elem_of_omap. split.
  - intros (m & Hm & Ht). destruct (tokenAccount_of largest m) eqn:E; [|discriminate].
    injection Ht as <- <-. split; assumption.
  - intros [Hm Ht]. exists mint. rewrite Ht. split; [assumption|reflexivity].
Qed.

Lemma valid_row_truthy (row : csvRow) (m : string) :
  valid_row row = true -> SolanaTokenId row = Some m -> truthy m = true.
Proof.
  unfold valid_row, truthy. intros Hv Hm. rewrite Hm in Hv.
  apply andb_true_iff in Hv. apply Hv.
Qed.

Lemma validTokenAccounts_truthy (batch : list csvRow) :
  Forall (fun ta => truthy ta.1 = true) (validTokenAccounts largest batch).
Proof.
  apply Forall_forall. intros [mint t] Hx. apply validTokenAccounts_elem in Hx as [Hm _].
  apply mintAddresses_elem in Hm as (row & _ & Hv & Hr). exact (valid_row_truthy _ _ Hv Hr).
Qed.

(** Frame: what one chunk reports as an owner. *)
Lemma chunk_owners_some (c : list (string * string)) (mint o : string) :
  (mint, Some o) ∈ chunk_owners multipleAccounts c ->
  truthy o = true /\
  exists j t st accounts,
    multipleAccounts (map snd c) = Resolved st (MAccounts accounts) /\
    accounts !! j = Some (Some o) /\ c !! j = Some (mint, t).
Proof.
  unfold chunk_owners.
  destruct (multipleAccounts (map snd c)) as [st [|accounts|]|st] eqn:Em; intros H.
  - apply elem_of_nil in H. contradiction.
  - apply list_elem_of_omap in H as (y & Hy & Hid). simpl in Hid. subst y.
    apply list_elem_of_lookup in Hy as (j & Hj). rewrite list_lookup_imap in Hj.
    destruct (accounts !! j) as [acc|] eqn:Ea; simpl in Hj; [|discriminate].
    destruct (c !! j) as [[mint' t]|] eqn:Ec; [|discriminate].
    destruct (truthy mint'); [|discriminate].
    destruct acc as [owner|]; [|discriminate].
    destruct (truthy owner) eqn:Eo; [|discriminate].
    injection Hj as <- <-. split; [exact Eo|].
    exists j, t, st, accounts. split_and!; [reflexivity | exact Ea | exact Ec].
  - apply list_elem_of_In, in_map_iff in H as (ta & Hta & _). discriminate.
  - apply list_elem_of_In, in_map_iff in H as (ta & Hta & _). discriminate.
Qed.

Lemma chunk_loop_some (fuel i : nat) (vta : list (string * string)) (mint o : string) :
  (mint, Some o) ∈ chunk_loop multipleAccounts fuel i vta ->
  truthy o = true /\
  exists addrs st accounts j t,
    multipleAccounts addrs = Resolved st (MAccounts accounts) /\
    accounts !! j = Some (Some o) /\ addrs !! j = Some t /\ (mint, t) ∈ vta.
Proof.
  revert i. induction fuel as [|f IH]; intros i H; simpl in H.
  - apply elem_of_nil in H. contradiction.
  - destruct (i <? length vta); [|apply elem_of_nil in H; contradiction].
    apply elem_of_app in H as [H|H]; [|exact (IH _ H)].
    apply chunk_owners_some in H as (Ho & j & t & st & accounts & Hm & Ha & Hc).
    split; [exact Ho|].
    exists (map snd (take chunkSize (drop i vta))), st, accounts, j, t.
    split_and!; [exact Hm | exact Ha | |].
    + rewrite map_fmap, list_lookup_fmap, Hc. reflexivity.
    + apply lookup_take_Some in Hc as [Hc _]. rewrite lookup_drop in Hc.
      exact (list_elem_of_lookup_2 _ _ _ Hc).
Qed.

Lemma ownerResults_some (batch : list csvRow) (mint o : string) :
  (mint, Some o) ∈ ownerResults largest multipleAccounts batch ->
  truthy o = true /\
  exists addrs st accounts j t,
    multipleAccounts addrs = Resolved st (MAccounts accounts) /\
    accounts !! j = Some (Some o) /\ addrs !! j = Some t /\
    tokenAccount_of largest mint = Some t.
Proof.
  unfold ownerResults. intros H.
  apply chunk_loop_some in H as (Ho & addrs & st & accounts & j & t & H1 & H2 & H3 & H4).
  apply validTokenAccounts_elem in H4 as [_ H4].
  split; [exact Ho|]. exists addrs, st, accounts, j, t. split_and!; assumption.
Qed.

(** Pointwise: with every [getMultipleAccounts] answering with [info] of
    each address. *)
Section Answers.
Context (info : string -> option string)
        (Hma : forall addrs, exists st, multipleAccounts addrs = Resolved st (MAccounts (map info addrs))).

Lemma chunk_owners_answers (c : list (string * string)) :
  Forall (fun ta => truthy ta.1 = true) c ->
  chunk_owners multipleAccounts c = map (fun ta => (ta.1, owner_of info ta.2)) c.
Proof.
  intros Hc. unfold chunk_owners. destruct (Hma (map snd c)) as [st ->].
  assert (Hi : imap (fun idx account =>
                 match c !! idx with
                 | Some (mint, _) =>
                     if truthy mint
                     then Some (mint, match account with
                                      | Some owner => if truthy owner then Some owner else None
                                      | None => None
                                      end)
                     else None
                 | None => None
                 end) (map info (map snd c))
               = map Some (map (fun ta => (ta.1, owner_of info ta.2)) c)).
  { apply list_eq. intros i. rewrite list_lookup_imap, !map_fmap, !list_lookup_fmap.
    destruct (c !! i) as [[mint t]|] eqn:E; simpl; [|reflexivity].
    rewrite Forall_lookup in Hc. specialize (Hc i _ E). simpl in Hc. rewrite Hc.
    unfold owner_of. reflexivity. }
  rewrite Hi. apply omap_some.
Qed.

Lemma chunk_loop_answers (fuel i : nat) (vta : list (string * string)) :
  Forall (fun ta => truthy ta.1 = true) vta ->
  length vta <= i + chunkSize * fuel ->
  chunk_loop multipleAccounts fuel i vta = map (fun ta => (ta.1, owner_of info ta.2)) (drop i vta).
Proof.
  intros Hv. revert i. induction fuel as [|f IH]; intros i Hl; simpl.
  - rewrite drop_ge by lia. reflexivity.
  - destruct (i <? length vta) eqn:E.
    + rewrite chunk_owners_answers by (apply Forall_take, Forall_drop, Hv).
      rewrite IH by (unfold chunkSize in *; lia).
      rewrite <- map_app. f_equal.
      transitivity (take chunkSize (drop i vta) ++ drop chunkSize (drop i vta));
        [rewrite drop_drop; reflexivity | apply take_drop].
    + apply Nat.ltb_ge in E. rewrite drop_ge by lia. reflexivity.
Qed.

End Answers.
End Batch.
End UltraFastFacts.

Module UltraFastExtra.
Import ExtraProps Examples.
Import Fetcher Solana UltraFast.

(** [processBatchUltraFast] keeps the batch's rows, their order, their
    identifiers and their other columns; it changes only [OwnerWallet], and
    only on a row whose identifier is non-empty, where the new value is null
    or a non-empty owner that a [getMultipleAccounts] answer gives, at the
    position of the token account that [getTokenLargestAccounts] yields for
    that row's own identifier. *)
Theorem processBatchUltraFast_frame largest multipleAccounts batch :
  length (processBatchUltraFast largest multipleAccounts batch) = length batch /\
  forall k row row',
    batch !! k = Some row ->
    processBatchUltraFast largest multipleAccounts batch !! k = Some row' ->
    SolanaTokenId row' = SolanaTokenId row /\ otherColumns row' = otherColumns row /\
    (OwnerWallet row' = OwnerWallet row \/
     exists m, SolanaTokenId row = Some m /\ m <> "" /\
       (OwnerWallet row' = None \/
        exists o t addrs st accounts j,
          OwnerWallet row' = Some o /\ o <> "" /\
          tokenAccount_of largest m = Some t /\
          multipleAccounts addrs = Resolved st (MAccounts accounts) /\
          addrs !! j = Some t /\ accounts !! j = Some (Some o))).
Proof.
  unfold processBatchUltraFast.
  destruct (bool_decide (mintAddresses batch = [])).
  { split; [reflexivity|]. intros k row row' H1 H2. rewrite H1 in H2. injection H2 as <-. auto. }
  destruct (bool_decide (validTokenAccounts largest batch = [])).
  { split; [reflexivity|]. intros k row row' H1 H2. rewrite H1 in H2. injection H2 as <-. auto. }
  split; [apply length_map|].
  intros k row row' H1 H2. rewrite UltraFastFacts.map_fmap, list_lookup_fmap, H1 in H2.
  injection H2 as <-. unfold map_back.
  destruct (SolanaTokenId row) as [m|] eqn:Em; [|auto].
  destruct (truthy m) eqn:Et; [|auto].
  simpl. split; [first [reflexivity | exact Em]|]. split; [reflexivity|]. right. exists m.
  split; [reflexivity|]. split; [unfold truthy in Et; apply negb_true_iff, bool_decide_eq_false in Et; exact Et|].
  destruct (List.find (fun r => bool_decide (r.1 = m)) (ownerResults largest multipleAccounts batch))
    as [[m' [owner|]]|] eqn:Ef; [|left; reflexivity|left; reflexivity].
  destruct (truthy owner) eqn:Eo; [|left; reflexivity].
  right. apply find_some in Ef as [Hin Heq]. simpl in Heq. apply bool_decide_eq_true in Heq. subst m'.
  apply list_elem_of_In in Hin.
  destruct (UltraFastFacts.ownerResults_some largest multipleAccounts batch m owner Hin)
    as (_ & addrs & st & accounts & j & t & Ha & Hj & Ht & Htok).
  exists owner, t, addrs, st, accounts, j. split_and!; try assumption; [reflexivity|].
  unfold truthy in Eo. apply negb_true_iff, bool_decide_eq_false in Eo. exact Eo.
Qed.

(** When every [getMultipleAccounts] answer lists, for each address asked,
    [info] of that address, and some identifier of the batch has a token
    account, [processBatchUltraFast] sets the [OwnerWallet] of every row
    with a non-empty identifier [m]: null when [m] is all whitespace, and
    otherwise the non-empty owner [info] gives for the token account of [m]
    (null if there is none); when no identifier has a token account, the
    batch is left as it is. *)
Theorem processBatchUltraFast_owners largest multipleAccounts info batch :
  (forall addrs, exists st, multipleAccounts addrs = Resolved st (MAccounts (map info addrs))) ->
  processBatchUltraFast largest multipleAccounts batch =
  if bool_decide (validTokenAccounts largest batch = []) then batch
  else map (fun row =>
              match SolanaTokenId row with
              | Some m =>
                  if truthy m
                  then with_owner row
                         (if bool_decide (trim m = "") then None
                          else match tokenAccount_of largest m with
                               | Some t => match info t with
                                           | Some o => if truthy o then Some o else None
                                           | None => None
                                           end
                               | None => None
                               end)
                  else row
              | None => row
              end) batch.
Proof.
  intros Hma. unfold processBatchUltraFast.
  destruct (bool_decide (mintAddresses batch = [])) eqn:Em.
  { apply bool_decide_eq_true in Em. unfold validTokenAccounts. rewrite Em. reflexivity. }
  destruct (bool_decide (validTokenAccounts largest batch = [])); [reflexivity|].
  assert (Ho : ownerResults largest multipleAccounts batch =
               map (fun ta => (ta.1, owner_of info ta.2)) (validTokenAccounts largest batch)).
  { unfold ownerResults. rewrite (UltraFastFacts.chunk_loop_answers multipleAccounts info Hma).
    - reflexivity.
    - apply UltraFastFacts.validTokenAccounts_truthy.
    - unfold chunkSize. lia. }
  apply map_ext_in. intros row Hrow. unfold map_back.
  destruct (SolanaTokenId row) as [m|] eqn:Eid; [|reflexivity].
  destruct (truthy m) eqn:Et; [|reflexivity]. f_equal.
  rewrite Ho, UltraFastFacts.find_map_fst.
  destruct (List.find (fun r => bool_decide (r.1 = m)) (validTokenAccounts largest batch))
    as [[m' t]|] eqn:Ef; simpl.
  - apply find_some in Ef as [Hin Heq]. simpl in Heq. apply bool_decide_eq_true in Heq. subst m'.
    apply list_elem_of_In, UltraFastFacts.validTokenAccounts_elem in Hin as [Hm Ht].
    apply UltraFastFacts.mintAddresses_elem in Hm as (row0 & _ & Hv & Hr).
    unfold valid_row in Hv. rewrite Hr in Hv. apply andb_true_iff in Hv as [_ Hv].
    apply negb_true_iff in Hv. rewrite Hv, Ht. unfold owner_of.
    destruct (info t) as [o|]; [|reflexivity].
    destruct (truthy o) eqn:Eo; rewrite ?Eo; reflexivity.
  - destruct (bool_decide (trim m = "")) eqn:Htr; [reflexivity|].
    destruct (tokenAccount_of largest m) as [t|] eqn:Ht; [|reflexivity].
    exfalso. assert (Hin : (m, t) ∈ validTokenAccounts largest batch).
    { apply UltraFastFacts.validTokenAccounts_elem. split; [|exact Ht].
      apply UltraFastFacts.mintAddresses_elem. exists row. split_and!.
      - apply list_elem_of_In. exact Hrow.
      - unfold valid_row. rewrite Eid. unfold truthy in Et. rewrite Et.
        simpl. rewrite Htr. reflexivity.
      - exact Eid. }
    apply list_elem_of_In in Hin. apply (find_none _ _ Ef) in Hin. simpl in Hin.
    rewrite bool_decide_true in Hin by reflexivity. discriminate.
Qed.

Lemma processBatchUltraFast_owners_witness :
  processBatchUltraFast ex_largest (fun addrs => Resolved 200 (MAccounts (map ex_info addrs))) ex_batch =
  [ {| SolanaTokenId := Some "mintA"; otherColumns := []; OwnerWallet := Some "OWNER" |};
    {| SolanaTokenId := Some "  "; otherColumns := []; OwnerWallet := None |};
    {| SolanaTokenId := Some "mintB"; otherColumns := []; OwnerWallet := None |};
    {| SolanaTokenId := Some ex_nbsp; otherColumns := []; OwnerWallet := None |} ].
Proof.
  rewrite (processBatchUltraFast_owners ex_largest
             (fun addrs => Resolved 200 (MAccounts (map ex_info addrs))) ex_info ex_batch).
  - vm_compute. reflexivity.
  - intros addrs. exists 200%Z. reflexivity.
Defined.

Lemma processBatchUltraFast_frame_witness :
  length (processBatchUltraFast ex_largest (fun addrs => Resolved 200 (MAccounts (map ex_info addrs)))
            ex_batch) = length ex_batch.
Proof.
  exact (proj1 (processBatchUltraFast_frame ex_largest
                  (fun addrs => Resolved 200 (MAccounts (map ex_info addrs))) ex_batch)).
Defined.

End UltraFastExtra.

Module ProvidersFacts.
Import ExtraProps Examples.
Import Providers.

Lemma getProvider_spec chainName chainConfig c p c1 :
  getProvider chainName chainConfig c = (p, c1) ->
  providerCache c1 !! chainName = Some p /\
  (forall n, n <> chainName -> providerCache c1 !! n = providerCache c !! n) /\
  (providerCache c !! chainName = Some p \/
   (providerCache c !! chainName = None /\
    p = mkProvider (created c) (Panda.rpc chainConfig) (Panda.chainId chainConfig) chainName)).
Proof.
  unfold getProvider. destruct (providerCache c !! chainName) as [q|] eqn:E.
  - intros [= <- <-]. split_and!; [exact E | reflexivity | left; reflexivity].
  - intros [= <- <-]. simpl. split_and!.
    + apply lookup_insert_eq.
    + intros n Hn. apply lookup_insert_ne. congruence.
    + right. split; reflexivity.
Qed.

Lemma getProvider_calls_spec calls c0 ps c :
  names_ok c0 ->
  getProvider_calls calls c0 = (ps, c) ->
  length ps = length calls /\
  names_ok c /\
  (forall n p, providerCache c0 !! n = Some p -> providerCache c !! n = Some p) /\
  (forall i n cfg p, calls !! i = Some (n, cfg) -> ps !! i = Some p -> providerCache c !! n = Some p) /\
  (forall n p, providerCache c !! n = Some p ->
     providerCache c0 !! n = Some p \/
     (providerCache c0 !! n = None /\
      exists k cfg, calls !! k = Some (n, cfg) /\
        (forall k' x, k' < k -> calls !! k' = Some x -> x.1 <> n) /\
        p_rpc p = Panda.rpc cfg /\ p_chainId p = Panda.chainId cfg)).
Proof.
  revert c0 ps. induction calls as [|[n0 cfg0] rest IH]; intros c0 ps Hok H.
  - injection H as <- <-. split_and!.
    + reflexivity.
    + exact Hok.
    + intros n p Hp. exact Hp.
    + intros i n cfg p Hi. rewrite lookup_nil in Hi. discriminate.
    + intros n p Hp. left. exact Hp.
  - simpl in H. destruct (getProvider n0 cfg0 c0) as [p0 c1] eqn:Eg.
    destruct (getProvider_calls rest c1) as [ps1 c2] eqn:Er. injection H as <- <-.
    destruct (getProvider_spec _ _ _ _ _ Eg) as (Hin & Hne & Hcase).
    assert (Hok1 : names_ok c1).
    { intros n p Hp. destruct (decide (n = n0)) as [->|Hn].
      - rewrite Hin in Hp. injection Hp as <-.
        destruct Hcase as [Hc|[_ ->]]; [exact (Hok _ _ Hc) | reflexivity].
      - rewrite Hne in Hp by exact Hn. exact (Hok _ _ Hp). }
    assert (Hmono1 : forall n p, providerCache c0 !! n = Some p -> providerCache c1 !! n = Some p).
    { intros n p Hp. destruct (decide (n = n0)) as [->|Hn].
      - rewrite Hin. destruct Hcase as [Hc|[Hc _]]; congruence.
      - rewrite Hne by exact Hn. exact Hp. }
    destruct (IH c1 ps1 Hok1 Er) as (Hlen & Hok2 & Hmono & Hps & Horig).
    split_and!.
    + simpl. rewrite Hlen. reflexivity.
    + exact Hok2.
    + intros n p Hp. apply Hmono, Hmono1, Hp.
    + intros [|i] n cfg p Hi Hp; simpl in Hi, Hp.
      * injection Hi as <- <-. injection Hp as <-. apply Hmono, Hin.
      * exact (Hps _ _ _ _ Hi Hp).
    + intros n p Hp. destruct (Horig n p Hp) as [H1|[H1 (k & cfg & Hk & Hfirst & Hr & Hc)]].
      * destruct (decide (n = n0)) as [->|Hn].
        -- rewrite Hin in H1. injection H1 as <-.
           destruct Hcase as [Hc|[Hc ->]]; [left; exact Hc|].
           right. split; [exact Hc|]. exists 0, cfg0. split_and!; try reflexivity.
           intros k' x Hk'. lia.
        -- left. rewrite Hne in H1 by exact Hn. exact H1.
      * right. assert (Hn : n <> n0) by (intros ->; congruence).
        split; [rewrite <- (Hne n Hn); exact H1|].
        exists (S k), cfg. split_and!; [exact Hk | | exact Hr | exact Hc].
        intros [|k'] x Hk' Hx; simpl in Hx.
        -- injection Hx as <-. simpl. congruence.
        -- apply (Hfirst k'); [lia | exact Hx].
Qed.

End ProvidersFacts.

Module ProvidersExtra.
Import ExtraProps Examples.
Import Providers.

(** Along any sequence of [getProvider] calls from an empty cache, the
    provider returned for a chain name is created by the first call with
    that name, with that call's RPC URL and chain id, and is returned again
    by every later call with the same name, whatever configuration it
    passes; calls with different names get different providers. *)
Theorem getProvider_one_per_chain calls ps c :
  getProvider_calls calls emptyCache = (ps, c) ->
  length ps = length calls /\
  (forall i j n n' cfg cfg' p p',
     calls !! i = Some (n, cfg) -> calls !! j = Some (n', cfg') ->
     ps !! i = Some p -> ps !! j = Some p' ->
     (p = p' <-> n = n')) /\
  (forall i n cfg p,
     calls !! i = Some (n, cfg) -> ps !! i = Some p ->
     p_name p = n /\
     exists k cfg0, calls !! k = Some (n, cfg0) /\
       (forall k' x, k' < k -> calls !! k' = Some x -> x.1 <> n) /\
       p_rpc p = Panda.rpc cfg0 /\ p_chainId p = Panda.chainId cfg0).
Proof.
  intros H.
  assert (Hok0 : names_ok emptyCache).
  { intros n p Hp. simpl in Hp. rewrite lookup_empty in Hp. discriminate. }
  destruct (ProvidersFacts.getProvider_calls_spec calls emptyCache ps c Hok0 H)
    as (Hlen & Hok & _ & Hps & Horig).
  split_and!.
  - exact Hlen.
  - intros i j n n' cfg cfg' p p' Hi Hj Hp Hp'.
    pose proof (Hps _ _ _ _ Hi Hp) as Hc. pose proof (Hps _ _ _ _ Hj Hp') as Hc'.
    split.
    + intros <-. rewrite <- (Hok _ _ Hc), <- (Hok _ _ Hc'). reflexivity.
    + intros <-. congruence.
  - intros i n cfg p Hi Hp. pose proof (Hps _ _ _ _ Hi Hp) as Hc.
    split; [exact (Hok _ _ Hc)|].
    destruct (Horig _ _ Hc) as [H0|[_ Hk]]; [|exact Hk].
    simpl in H0. rewrite lookup_empty in H0. discriminate.
Qed.

Lemma getProvider_one_per_chain_witness :
  length (getProvider_calls ex_calls emptyCache).1 = length ex_calls.
Proof.
  apply (getProvider_one_per_chain ex_calls (getProvider_calls ex_calls emptyCache).1
           (getProvider_calls ex_calls emptyCache).2).
  reflexivity.
Defined.

End ProvidersExtra.

Module BlocksExtra.
Import ExtraProps Examples.
Import Panda Blocks.

(** [populateSnapshotBlocks] walks the chains in order and stops at the
    first chain with a Moralis mapping whose block lookup throws: every
    chain before it has its [snapshotBlock] set to Moralis's block for its
    mapped name (or kept, when it has no mapping), that chain and all later
    ones keep their configuration, and the call reports the error; when no
    lookup throws, every chain is updated and the call completes. *)
Theorem populateSnapshotBlocks_prefix dateToBlock chains :
  exists k, k <= length chains /\
    (populateSnapshotBlocks dateToBlock chains).1 =
      map (fun e => match lookup_assoc e.1 moralisChains with
                    | Some mc => match dateToBlock mc with
                                 | Some b => (e.1, set_block b e.2)
                                 | None => e
                                 end
                    | None => e
                    end) (take k chains) ++ drop k chains /\
    (forall j n cfg mc, j < k -> chains !! j = Some (n, cfg) ->
       lookup_assoc n moralisChains = Some mc -> dateToBlock mc <> None) /\
    match (populateSnapshotBlocks dateToBlock chains).2 with
    | Completed => k = length chains
    | Threw => exists n cfg mc, chains !! k = Some (n, cfg) /\
                 lookup_assoc n moralisChains = Some mc /\ dateToBlock mc = None
    end.
Proof.
  induction chains as [|[n cfg] rest IH].
  - exists 0. simpl. split_and!; [lia | reflexivity | intros; lia | reflexivity].
  - destruct IH as (k & Hk & Hres & Hok & Hst). cbn -[lookup_assoc moralisChains].
    destruct (lookup_assoc n moralisChains) as [mc|] eqn:Em.
    + destruct (dateToBlock mc) as [b|] eqn:Ed.
      * destruct (populateSnapshotBlocks dateToBlock rest) as [rest' st] eqn:Er. cbn [fst snd] in Hres, Hst.
        exists (S k). split_and!.
        -- lia.
        -- cbn -[lookup_assoc moralisChains]. rewrite Em, Ed, Hres. reflexivity.
        -- intros [|j] n' cfg' mc' Hj Hc Hm; simpl in Hc.
           ++ injection Hc as <- <-. rewrite Em in Hm. injection Hm as <-. rewrite Ed. discriminate.
           ++ apply (Hok j n' cfg' mc'); [lia | exact Hc | exact Hm].
        -- destruct st; [simpl; lia | exact Hst].
      * exists 0. simpl. split_and!; [lia | reflexivity | intros; lia |].
        exists n, cfg, mc. split_and!; [reflexivity | exact Em | exact Ed].
    + destruct (populateSnapshotBlocks dateToBlock rest) as [rest' st] eqn:Er. cbn [fst snd] in Hres, Hst.
      exists (S k). split_and!.
      * lia.
      * cbn -[lookup_assoc moralisChains]. rewrite Em, Hres. reflexivity.
      * intros [|j] n' cfg' mc' Hj Hc Hm; simpl in Hc.
        -- injection Hc as <- <-. congruence.
        -- apply (Hok j n' cfg' mc'); [lia | exact Hc | exact Hm].
      * destruct st; [simpl; lia | exact Hst].
Qed.

(** When the bundled [getLatestBlocks] completes, every chain keeps its
    name, RPC URL and chain id, and the bundled [snapshotNFTs] then scans a
    chain ([chainConfig.snapshotBlock && chainConfig.rpc]) exactly when it
    has an RPC URL and its latest block number is not 0. *)
Theorem getLatestBlocks_scanned_chains latest chains :
  (getLatestBlocks latest chains).2 = Completed ->
  length (getLatestBlocks latest chains).1 = length chains /\
  forall k n cfg, chains !! k = Some (n, cfg) ->
    exists cfg', (getLatestBlocks latest chains).1 !! k = Some (n, cfg') /\
      rpc cfg' = rpc cfg /\ chainId cfg' = chainId cfg /\
      (bundled_active cfg' = true <-> rpc cfg <> "" /\ exists b, latest n = Some (S b)).
Proof.
  induction chains as [|[n cfg] rest IH]; simpl.
  - intros _. split; [reflexivity|]. intros k n cfg Hk. rewrite lookup_nil in Hk. discriminate.
  - destruct (bool_decide (rpc cfg = "")) eqn:Er.
    + destruct (getLatestBlocks latest rest) as [rest' st] eqn:Erest. simpl.
      intros Hst. destruct (IH Hst) as [Hlen Hall]. cbn [fst snd] in Hlen, Hall.
      split; [simpl; rewrite Hlen; reflexivity|].
      intros [|k] n' cfg' Hk; simpl in Hk.
      * injection Hk as <- <-. exists cfg. split_and!; try reflexivity.
        apply bool_decide_eq_true in Er. unfold bundled_active. rewrite Er.
        rewrite andb_false_r. split; [discriminate|]. intros [H _]. contradiction.
      * exact (Hall _ _ _ Hk).
    + destruct (latest n) as [b|] eqn:El; [|discriminate].
      destruct (getLatestBlocks latest rest) as [rest' st] eqn:Erest. simpl.
      intros Hst. destruct (IH Hst) as [Hlen Hall]. cbn [fst snd] in Hlen, Hall.
      split; [simpl; rewrite Hlen; reflexivity|].
      intros [|k] n' cfg' Hk; simpl in Hk.
      * injection Hk as <- <-. exists (set_block (Some b) cfg). split_and!; try reflexivity.
        apply bool_decide_eq_false in Er. unfold bundled_active. simpl.
        rewrite bool_decide_false by exact Er. rewrite andb_true_r.
        destruct b as [|b]; simpl.
        -- split; [discriminate|]. intros [_ [b' Hb]]. rewrite El in Hb. discriminate.
        -- split; [intros _; split; [exact Er | exists b; exact El] | reflexivity].
      * exact (Hall _ _ _ Hk).
Qed.

Lemma getLatestBlocks_scanned_chains_witness :
  length (getLatestBlocks ex_latest ex_chains).1 = length ex_chains.
Proof.
  apply (getLatestBlocks_scanned_chains ex_latest ex_chains). reflexivity.
Defined.

End BlocksExtra.

Module SummaryFacts.
Import ExtraProps Examples.
Import Summary.

Lemma insert_wallet_perm (e : string * nat) (l : list (string * nat)) :
  insert_wallet e l ≡ₚ e :: l.
Proof.
  induction l as [|e' l IH]; simpl; [reflexivity|].
  destruct (e.2 <? e'.2); [|reflexivity].
  rewrite IH. apply Permutation_swap.
Qed.

Lemma insert_wallet_hd (a e : string * nat) (l : list (string * nat)) :
  HdRel by_count a l -> by_count a e -> HdRel by_count a (insert_wallet e l).
Proof.
  intros Hl He. destruct l as [|e' l]; simpl; [constructor; exact He|].
  destruct (e.2 <? e'.2); constructor; [inversion Hl; assumption | exact He].
Qed.

Lemma insert_wallet_sorted (e : string * nat) (l : list (string * nat)) :
  Sorted by_count l -> Sorted by_count (insert_wallet e l).
Proof.
  induction l as [|e' l IH]; intros Hs; simpl; [repeat constructor|].
  destruct (e.2 <? e'.2) eqn:E.
  - apply Nat.ltb_lt in E. inversion Hs as [|? ? Hs' Hhd]; subst.
    constructor; [exact (IH Hs')|]. apply insert_wallet_hd; [exact Hhd|].
    unfold by_count. lia.
  - apply Nat.ltb_ge in E. constructor; [exact Hs|]. constructor. unfold by_count. lia.
Qed.

Lemma sortedWallets_perm (wc : gmap string nat) : sortedWallets wc ≡ₚ map_to_list wc.
Proof.
  unfold sortedWallets. induction (map_to_list wc) as [|e l IH]; simpl; [reflexivity|].
  rewrite insert_wallet_perm, IH. reflexivity.
Qed.

Lemma sortedWallets_sorted (wc : gmap string nat) : Sorted by_count (sortedWallets wc).
Proof.
  unfold sortedWallets. induction (map_to_list wc) as [|e l IH]; simpl; [constructor|].
  apply insert_wallet_sorted, IH.
Qed.

Lemma StronglySorted_app_rel {A : Type} (R : A -> A -> Prop) (l1 l2 : list A) x y :
  StronglySorted R (l1 ++ l2) -> x ∈ l1 -> y ∈ l2 -> R x y.
Proof.
  induction l1 as [|a l1 IH]; intros Hs Hx Hy; [apply elem_of_nil in Hx; contradiction|].
  simpl in Hs. inversion Hs as [|? ? Hs' Hall]; subst.
  apply elem_of_cons in Hx as [->|Hx].
  - rewrite Forall_forall in Hall. apply Hall. apply elem_of_app. right. exact Hy.
  - exact (IH Hs' Hx Hy).
Qed.

End SummaryFacts.

Module SummaryExtra.
Import ExtraProps.
Import Panda Summary.

(** The holders ranking of [generateWalletSummary] lists each wallet once
    with its count ([sortedWallets] is a permutation of the entries of
    [walletCounts]), in non-increasing order of count; the "Top 5 Holders"
    are [min 5 (number of wallets)] entries, each holding at least as many
    tokens as any wallet left out. *)
Theorem sortedWallets_ranking (walletCounts : gmap string nat) :
  sortedWallets walletCounts ≡ₚ map_to_list walletCounts /\
  Sorted (fun a b => b.2 <= a.2) (sortedWallets walletCounts) /\
  length (topHolders walletCounts) = Nat.min 5 (size walletCounts) /\
  (forall x y, x ∈ topHolders walletCounts -> y ∈ drop 5 (sortedWallets walletCounts) -> y.2 <= x.2).
Proof.
  split_and!.
  - apply SummaryFacts.sortedWallets_perm.
  - apply SummaryFacts.sortedWallets_sorted.
  - unfold topHolders. rewrite length_take, (Permutation_length (SummaryFacts.sortedWallets_perm _)),
      length_map_to_list. lia.
  - intros x y Hx Hy. unfold topHolders in Hx.
    apply (SummaryFacts.StronglySorted_app_rel by_count
             (take 5 (sortedWallets walletCounts)) (drop 5 (sortedWallets walletCounts)));
      [|exact Hx|exact Hy].
    rewrite take_drop. apply Sorted_StronglySorted; [|apply SummaryFacts.sortedWallets_sorted].
    intros a b c Hab Hbc. unfold by_count in *. lia.
Qed.

(** The failure count behind [errorRate] is the number of ids whose
    [ownerOf] call threw; the rate of an empty batch is NaN; and
    [calculateBatchSize] applied to a batch's [errorRate] returns 10 when
    more than half of the calls threw, 15 when more than a fifth did, and
    otherwise 10 below 100 remaining tokens and 25 from 100 on. *)
Theorem calculateBatchSize_of_batch (call : nat -> option string) (tokenIds : list nat)
    (remainingTokens : nat) :
  length (filter (fun r => success r = false) (processTokenBatch call tokenIds).1) =
    length (filter (fun tokenId => call tokenId = None) tokenIds) /\
  ((processTokenBatch call tokenIds).2 = None <-> tokenIds = []) /\
  calculateBatchSize remainingTokens (processTokenBatch call tokenIds).2 =
    (let failures := length (filter (fun tokenId => call tokenId = None) tokenIds) in
     if bool_decide (length tokenIds < 2 * failures) then 10
     else if bool_decide (length tokenIds < 5 * failures) then 15
     else if remainingTokens <? 100 then 10
     else 25).
Proof.
  assert (Hf : length (filter (fun r => success r = false) (processTokenBatch call tokenIds).1) =
               length (filter (fun tokenId => call tokenId = None) tokenIds)).
  { unfold processTokenBatch. simpl. induction tokenIds as [|id ids IH]; [reflexivity|].
    cbn [map]. rewrite !filter_cons.
    destruct (call id) eqn:E; repeat case_decide; simpl in *; try congruence; lia. }
  split; [exact Hf|].
  unfold processTokenBatch in *. simpl in *. rewrite length_map in *.
  set (f := length (filter (fun tokenId => call tokenId = None) tokenIds)) in *.
  assert (Hle : f <= length tokenIds) by apply length_filter.
  clearbody f.
  destruct tokenIds as [|id ids] eqn:Et.
  - simpl in *. split; [split; reflexivity|]. unfold calculateBatchSize, rate_above. simpl.
    assert (f = 0) as -> by (simpl in Hle; lia). reflexivity.
  - split; [split; discriminate|].
    rewrite Hf. unfold calculateBatchSize, rate_above, Qle_bool. cbn [length Qnum Qden].
    rewrite Zpos_P_of_succ_nat.
    change (length (id :: ids)) with (S (length ids)) in *.
    destruct (Z.leb_spec (Z.of_nat f * 2) (1 * Z.succ (Z.of_nat (length ids)))) as [H2|H2];
      simpl negb; cbv iota.
    + rewrite bool_decide_false by lia.
      destruct (Z.leb_spec (Z.of_nat f * 5) (1 * Z.succ (Z.of_nat (length ids)))) as [H5|H5];
        simpl negb; cbv iota.
      * rewrite bool_decide_false by lia. reflexivity.
      * rewrite bool_decide_true by lia. reflexivity.
    + rewrite bool_decide_true by lia. reflexivity.
Qed.

End SummaryExtra.

Module SolanaStatsExtra.
Import ExtraProps Examples.
Import Solana Summary.

Lemma length_filter_map {A B : Type} (P : B -> Prop) `{!forall x, Decision (P x)} (g : A -> B) (l : list A) :
  length (filter P (map g l)) = length (filter (fun x => P (g x)) l).
Proof.
  induction l as [|x l IH]; [reflexivity|]. cbn [map]. rewrite !filter_cons.
  repeat case_decide; simpl; try contradiction; lia.
Qed.

(** After a saved run of [processEarningsCSV], the statistics it prints
    count the rows written: [validData.length] is the number of input rows
    with a non-blank identifier, [foundOwners] the number of those whose
    fetched owner is a non-empty string, and found plus missing is the
    total. *)
Theorem processEarningsCSV_stats (BATCH_SIZE : nat) (fetched : string -> option string)
    (data written : list csvRow) :
  0 < BATCH_SIZE ->
  processEarningsCSV BATCH_SIZE fetched data = Saved written ->
  length written = length (filter valid_row data) /\
  foundOwners written =
    length (filter (fun row => match SolanaTokenId row with
                               | Some m => match fetched m with
                                           | Some o => negb (bool_decide (o = ""))
                                           | None => false
                                           end
                               | None => false
                               end = true) (filter valid_row data)) /\
  foundOwners written + missingOwners written = length written.
Proof.
  intros HB H. pose proof (OutputClaims.processEarningsCSV_written _ _ _ _ HB H) as ->.
  assert (Hf : foundOwners
                 (map (fun row => with_owner row (match SolanaTokenId row with
                                                  | Some m => fetched m
                                                  | None => None
                                                  end)) (filter valid_row data)) =
               length (filter (fun row => match SolanaTokenId row with
                               | Some m => match fetched m with
                                           | Some o => negb (bool_decide (o = ""))
                                           | None => false
                                           end
                               | None => false
                               end = true) (filter valid_row data))).
  { unfold foundOwners. rewrite length_filter_map. f_equal. apply list_filter_iff.
    intros row. simpl. destruct (SolanaTokenId row); reflexivity. }
  split_and!.
  - apply length_map.
  - exact Hf.
  - unfold missingOwners. pose proof (length_filter
      (fun row => match OwnerWallet row with
                  | Some o => negb (bool_decide (o = ""))
                  | None => false
                  end = true)
      (map (fun row => with_owner row (match SolanaTokenId row with
                                       | Some m => fetched m
                                       | None => None
                                       end)) (filter valid_row data))).
    unfold foundOwners. lia.
Qed.

Lemma processEarningsCSV_stats_witness :
  length (match processEarningsCSV 2 ex_fetched ex_rows with Saved w => w | Failed _ => [] end) = 2 /\
  foundOwners (match processEarningsCSV 2 ex_fetched ex_rows with Saved w => w | Failed _ => [] end) = 1.
Proof.
  destruct (processEarningsCSV_stats 2 ex_fetched ex_rows
              (match processEarningsCSV 2 ex_fetched ex_rows with Saved w => w | Failed _ => [] end)
              ltac:(lia) ltac:(vm_compute; reflexivity)) as (H1 & H2 & _).
  rewrite H1, H2. split; vm_compute; reflexivity.
Defined.

End SolanaStatsExtra.

Module CsvSortFacts.

Section Insertion.
Context {R : Type} (key : R -> nat) (ins : R -> list R -> list R)
        (Hnil : forall r, ins r [] = [r])
        (Hcons : forall r r' rest,
            ins r (r' :: rest) = if key r' <=? key r then r' :: ins r rest else r :: r' :: rest).

Lemma ins_perm r l : ins r l ≡ₚ r :: l.
Proof.
  induction l as [|r' l IH]; [rewrite Hnil; reflexivity|].
  rewrite Hcons. destruct (key r' <=? key r); [|reflexivity].
  rewrite IH. apply Permutation_swap.
Qed.

Lemma foldr_ins_perm l : foldr ins [] l ≡ₚ l.
Proof.
  induction l as [|r l IH]; simpl; [reflexivity|]. rewrite ins_perm, IH. reflexivity.
Qed.

Lemma ins_hd a r l :
  HdRel (fun x y => key x <= key y) a l -> key a <= key r ->
  HdRel (fun x y => key x <= key y) a (ins r l).
Proof.
  intros Hl Hr. destruct l as [|r' l]; [rewrite Hnil; constructor; exact Hr|].
  rewrite Hcons. destruct (key r' <=? key r); constructor; [inversion Hl; assumption | exact Hr].
Qed.

Lemma ins_sorted r l :
  Sorted (fun x y => key x <= key y) l -> Sorted (fun x y => key x <= key y) (ins r l).
Proof.
  induction l as [|r' l IH]; intros Hs; [rewrite Hnil; repeat constructor|].
  rewrite Hcons. destruct (key r' <=? key r) eqn:E.
  - apply Nat.leb_le in E. inversion Hs as [|? ? Hs' Hhd]; subst.
    constructor; [exact (IH Hs')|]. apply ins_hd; assumption.
  - apply Nat.leb_gt in E. constructor; [exact Hs|]. constructor. lia.
Qed.

Lemma foldr_ins_sorted l : Sorted (fun x y => key x <= key y) (foldr ins [] l).
Proof. induction l as [|r l IH]; simpl; [constructor|]. apply ins_sorted, IH. Qed.

Lemma strict_of_sorted_nodup l :
  Sorted (fun x y => key x <= key y) l -> NoDup (map key l) ->
  StronglySorted (fun x y => key x < key y) l.
Proof.
  intros Hs Hnd. apply Sorted_StronglySorted in Hs; [|intros a b c; lia].
  induction Hs as [|a l Hs IH Hall]; constructor.
  - apply IH. simpl in Hnd. apply NoDup_cons in Hnd as [_ Hnd]. exact Hnd.
  - simpl in Hnd. apply NoDup_cons in Hnd as [Hnin _].
    rewrite Forall_forall in Hall |- *. intros b Hb.
    specialize (Hall b Hb). destruct (decide (key a = key b)) as [Heq|Hne]; [|lia].
    exfalso. apply Hnin. rewrite Heq. apply list_elem_of_In, in_map, list_elem_of_In, Hb.
Qed.

End Insertion.

Lemma map_key_row_of {A R : Type} (key : R -> nat) (row_of : nat * A -> R)
    (Hkey : forall e, key (row_of e) = e.1) (m : gmap nat A) :
  NoDup (map key (map row_of (map_to_list m))).
Proof.
  rewrite map_map. erewrite map_ext by (intros e; apply Hkey).
  rewrite UltraFastFacts.map_fmap. apply NoDup_fst_map_to_list.
Qed.

End CsvSortFacts.

Module CsvExtra.
Import Engine.

(** The Infinity CSV rows ([csvData], sorted by [parseInt(TokenId)]) are in
    strictly increasing token-id order, one row per entry of
    [finalSnapshot], with that entry's owner and block. *)
Theorem infinity_csvData_sorted (s : Infinity.istate) :
  StronglySorted (fun a b => Infinity.TokenId a < Infinity.TokenId b) (Infinity.csvData s) /\
  (forall row, row ∈ Infinity.csvData s <->
     exists id r, finalSnapshot s !! id = Some r /\ row = Infinity.row_of (id, r)) /\
  length (Infinity.csvData s) = size (finalSnapshot s).
Proof.
  assert (Hp : Infinity.csvData s ≡ₚ map Infinity.row_of (map_to_list (finalSnapshot s))).
  { apply (CsvSortFacts.foldr_ins_perm Infinity.TokenId); reflexivity. }
  split_and!.
  - apply (CsvSortFacts.strict_of_sorted_nodup Infinity.TokenId).
    + apply (CsvSortFacts.foldr_ins_sorted Infinity.TokenId Infinity.insert_row); reflexivity.
    + rewrite Hp. apply (CsvSortFacts.map_key_row_of Infinity.TokenId). reflexivity.
  - intros row. rewrite Hp, list_elem_of_In, in_map_iff. split.
    + intros ([id r] & <- & Hin). exists id, r. split; [|reflexivity].
      apply elem_of_map_to_list, list_elem_of_In, Hin.
    + intros (id & r & Hr & ->). exists (id, r). split; [reflexivity|].
      apply list_elem_of_In, elem_of_map_to_list, Hr.
  - rewrite (Permutation_length Hp), length_map, length_map_to_list. reflexivity.
Qed.

(** The multi-chain Panda CSV rows are in strictly increasing token-id
    order, one row per entry of [finalSnapshot], with that entry's owner,
    chain and block. *)
Theorem panda_csvData_sorted (s : Panda.pstate) :
  StronglySorted (fun a b => Panda.TokenId a < Panda.TokenId b) (Panda.csvData s) /\
  (forall row, row ∈ Panda.csvData s <->
     exists id r, finalSnapshot s !! id = Some r /\ row = Panda.row_of (id, r)) /\
  length (Panda.csvData s) = size (finalSnapshot s).
Proof.
  assert (Hp : Panda.csvData s ≡ₚ map Panda.row_of (map_to_list (finalSnapshot s))).
  { apply (CsvSortFacts.foldr_ins_perm Panda.TokenId); reflexivity. }
  split_and!.
  - apply (CsvSortFacts.strict_of_sorted_nodup Panda.TokenId).
    + apply (CsvSortFacts.foldr_ins_sorted Panda.TokenId Panda.insert_row); reflexivity.
    + rewrite Hp. apply (CsvSortFacts.map_key_row_of Panda.TokenId). reflexivity.
  - intros row. rewrite Hp, list_elem_of_In, in_map_iff. split.
    + intros ([id r] & <- & Hin). exists id, r. split; [|reflexivity].
      apply elem_of_map_to_list, list_elem_of_In, Hin.
    + intros (id & r & Hr & ->). exists (id, r). split; [reflexivity|].
      apply list_elem_of_In, elem_of_map_to_list, Hr.
  - rewrite (Permutation_length Hp), length_map, length_map_to_list. reflexivity.
Qed.

End CsvExtra.
